(** * Ticker event queue (source/ticker_api.c)

    A shallow embedding of the mbed ticker API: the wraparound predicate
    [ticker_timeIsInPeriod], ordered insertion, removal and the interrupt
    drain loop, over an explicit store of caller-owned event records.

    - Event records live in a finite map from addresses to records; the
      queue is the chain of [next] pointers from [head].  A load or store
      through a pointer to no record is a [Fault].
    - The three loops of the code take fuel, one unit per iteration; running
      out of it is [OutOfFuel].  The lemmas give the fuel that is enough for
      a chain that ends in NULL.
    - The hardware interface is a log of the calls made to it, in order, and
      a function giving the counter value of each [read()].
    - ticker_api.h is not part of the sources at hand: the width of
      [timestamp_t] and the four [TICKER_...] constants are parameters.
    - The event handler is a function pointer; what calling it does to the
      ticker state is a parameter as well. *)

From Stdlib Require Import ZArith Lia.
From stdpp Require Import base option list sorting gmap.

Local Open Scope Z_scope.

(** ** Data model *)

(** A non-NULL pointer to a caller-owned [ticker_event_t]; a C pointer that
    may be NULL is an [option addr]. *)
Abbreviation addr := positive (only parsing).

(** A [ticker_event_handler] function pointer. *)
Abbreviation fnptr := positive (only parsing).

(** [struct ticker_event_s { timestamp_t timestamp; uint32_t id; struct ticker_event_s *next; }] *)
Record ticker_event_t : Type := mk_event {
  timestamp : Z;
  id : Z;
  next : option addr
}.

(** Calls made to [data->interface] and to the CMSIS interrupt mask, in the
    order the code makes them. *)
Inductive hw_call : Type :=
| HwInit
| HwRead (v : Z)
| HwSetInterrupt (t : Z)
| HwDisableInterrupt
| HwClearInterrupt
| CpuDisableIrq
| CpuEnableIrq.

(** The memory holding the event records, [data->queue] ([head] and
    [event_handler]), the number of [interface->read()] calls made so far and
    the log of hardware calls. *)
Record State : Type := mk_state {
  events : gmap addr ticker_event_t;
  head : option addr;
  event_handler : option fnptr;
  reads : nat;
  trace : list hw_call
}.

(** What running a piece of code gives: a result, a loop that used up its
    fuel, or a load or store through a pointer to no record. *)
Inductive outcome (A : Type) : Type :=
| Ret (a : A)
| OutOfFuel
| Fault.
Arguments Ret {A} a.
Arguments OutOfFuel {A}.
Arguments Fault {A}.

Definition hw (c : hw_call) (st : State) : State :=
  mk_state (events st) (head st) (event_handler st) (reads st) (trace st ++ [c]).

Definition set_head (h : option addr) (st : State) : State :=
  mk_state (events st) h (event_handler st) (reads st) (trace st).

Definition set_events (m : gmap addr ticker_event_t) (st : State) : State :=
  mk_state m (head st) (event_handler st) (reads st) (trace st).

Definition set_event_handler (f : option fnptr) (st : State) : State :=
  mk_state (events st) (head st) f (reads st) (trace st).

(** ** The wraparound predicate *)

(** [ticker_timeIsInPeriod(start, time, end)], cases (A.1), (A.2) and (B). *)
Definition ticker_timeIsInPeriod (start time end_ : Z) : bool :=
  ((time >=? start) && ((time <? end_) ||
                        (start >=? end_))) ||
  ((time <? start) && (end_ <? start) && (end_ >? time)).

(** The age of a timestamp [t] seen from the origin [start], on a counter of
    [W] bits. *)
Definition age (W start t : Z) : Z := (t - start) mod 2 ^ W.

(** ** Running code: results, loads and stores *)

Definition bind {A B : Type} (c : outcome A) (k : A -> outcome B) : outcome B :=
  match c with
  | Ret a => k a
  | OutOfFuel => OutOfFuel
  | Fault => Fault
  end.

Notation "'let*' x := c 'in' k" := (bind c (fun x => k))
  (at level 10, x name, c at level 100, k at level 200).
Notation "'let*' ' pat := c 'in' k" := (bind c (fun pat => k))
  (at level 10, pat pattern, c at level 100, k at level 200).

(** [*p] for a pointer [p] to an event record. *)
Definition load (a : addr) (st : State) : outcome ticker_event_t :=
  match events st !! a with
  | Some e => Ret e
  | None => Fault
  end.

(** [p->timestamp = v], [p->id = v] and [p->next = n]. *)
Definition store_timestamp (a : addr) (v : Z) (st : State) : outcome State :=
  let* e := load a st in
  Ret (set_events (<[a := mk_event v (id e) (next e)]> (events st)) st).

Definition store_id (a : addr) (v : Z) (st : State) : outcome State :=
  let* e := load a st in
  Ret (set_events (<[a := mk_event (timestamp e) v (next e)]> (events st)) st).

Definition store_next (a : addr) (n : option addr) (st : State) : outcome State :=
  let* e := load a st in
  Ret (set_events (<[a := mk_event (timestamp e) (id e) n]> (events st)) st).

(** ** The ticker API *)

Section Ticker.

(** The width in bits of [timestamp_t] and the constants of ticker_api.h. *)
Variable timestamp_bits : Z.
Variable TICKER_TIME_MASK : Z.
Variable TICKER_FUTURE_TOLERANCE : Z.
Variable TICKER_PAST_TOLERANCE : Z.
Variable TICKER_EXPECT_ISR_DELAY : Z.

(** [interface_read n] is the counter value that the call number [n] of
    [data->interface->read()] returns. *)
Variable interface_read : nat -> Z.

(** What calling the function behind a handler pointer with an event id does
    to the ticker. *)
Variable call_handler : fnptr -> Z -> State -> outcome State.

(** Conversion of an arithmetic result to [timestamp_t]. *)
Definition to_timestamp (x : Z) : Z := x mod 2 ^ timestamp_bits.

(** [data->interface->read()] *)
Definition read (st : State) : Z * State :=
  let v := interface_read (reads st) in
  (v, mk_state (events st) (head st) (event_handler st) (S (reads st))
               (trace st ++ [HwRead v])).

Definition ticker_set_handler (handler : option fnptr) (st : State) : State :=
  set_event_handler handler (hw HwInit st).

(** The test of lines 41-44: [diff] is a [uint32_t]. *)
Definition event_due (ts ticksNow : Z) : bool :=
  let diff := (ts - ticksNow) mod 2 ^ 32 in
  let diff := Z.land diff TICKER_TIME_MASK in
  (diff <=? TICKER_FUTURE_TOLERANCE) || (diff >? TICKER_PAST_TOLERANCE).

(** The [while (1)] loop of [ticker_irq_handler]; one unit of fuel per
    iteration.  [log] collects the ids the handler was called with. *)
Fixpoint irq_loop (fuel : nat) (st : State) (log : list Z) : outcome (State * list Z) :=
  match fuel with
  | O => OutOfFuel
  | S fuel' =>
    match head st with
    | None => Ret (hw HwDisableInterrupt st, log)
    | Some h =>
      let (ticksNow, st) := read st in
      let* p := load h st in
      if event_due (timestamp p) ticksNow then
        let st := set_head (next p) st in
        match event_handler st with
        | Some f =>
          let* st := call_handler f (id p) st in
          irq_loop fuel' st (log ++ [id p])
        | None => irq_loop fuel' st log
        end
      else
        Ret (hw (HwSetInterrupt (timestamp p)) st, log)
    end
  end.

Definition ticker_irq_handler (fuel : nat) (st : State) : outcome (State * list Z) :=
  irq_loop fuel (hw HwClearInterrupt st) [].

(** The scan of [ticker_insert_event] (lines 85-94): gives the final
    [(prev, p)]. *)
Fixpoint insert_scan (fuel : nat) (actCnt timestamp_ : Z) (prev p : option addr)
    (st : State) : outcome (option addr * option addr) :=
  match p with
  | None => Ret (prev, p)
  | Some pa =>
    match fuel with
    | O => OutOfFuel
    | S fuel' =>
      let* e := load pa st in
      if ticker_timeIsInPeriod actCnt timestamp_ (timestamp e)
      then Ret (prev, p)
      else insert_scan fuel' actCnt timestamp_ p (next e) st
    end
  end.

Definition ticker_insert_event (fuel : nat) (obj : addr) (timestamp_ id_ : Z)
    (st : State) : outcome State :=
  let st := hw CpuDisableIrq st in
  let (actCnt, st) := read st in
  let actCnt := to_timestamp (actCnt - TICKER_EXPECT_ISR_DELAY) in
  let timestamp_ := to_timestamp (Z.land timestamp_ TICKER_TIME_MASK) in
  let* st := store_timestamp obj timestamp_ st in
  let* st := store_id obj id_ st in
  let* '(prev, p) := insert_scan fuel actCnt timestamp_ None (head st) st in
  let* st := match prev with
        | None => Ret (hw (HwSetInterrupt timestamp_) (set_head (Some obj) st))
        | Some pv => store_next pv (Some obj) st
        end in
  let* st := store_next obj p st in
  Ret (hw CpuEnableIrq st).

(** The scan of [ticker_remove_event] (lines 122-129). *)
Fixpoint remove_scan (fuel : nat) (obj : addr) (p : option addr) (st : State)
    : outcome State :=
  match p with
  | None => Ret st
  | Some pa =>
    match fuel with
    | O => OutOfFuel
    | S fuel' =>
      let* e := load pa st in
      if decide (next e = Some obj) then
        let* o := load obj st in
        store_next pa (next o) st
      else remove_scan fuel' obj (next e) st
    end
  end.

Definition ticker_remove_event (fuel : nat) (obj : addr) (st : State) : outcome State :=
  let st := hw CpuDisableIrq st in
  let* st := (if decide (head st = Some obj) then
           let* o := load obj st in
           let st := set_head (next o) st in
           match head st with
           | None => Ret (hw HwDisableInterrupt st)
           | Some h =>
             let* e := load h st in
             Ret (hw (HwSetInterrupt (timestamp e)) st)
           end
         else remove_scan fuel obj (head st) st) in
  Ret (hw CpuEnableIrq st).

Definition ticker_read (st : State) : Z * State := read st.

End Ticker.

(** ** The queue as a list *)

(** What the queue holds for one linked record: its address, timestamp and
    id. *)
Record entry : Type := mk_entry {
  e_addr : addr;
  e_time : Z;
  e_id : Z
}.

Definition entry_of (a : addr) (e : ticker_event_t) : entry :=
  mk_entry a (timestamp e) (id e).

(** [lseg m p q l]: following [next] from [p] reaches [q] through the
    records listed in [l]. *)
Inductive lseg (m : gmap addr ticker_event_t) :
    option addr -> option addr -> list entry -> Prop :=
| lseg_nil p : lseg m p p []
| lseg_cons a e q l :
    m !! a = Some e -> lseg m (next e) q l ->
    lseg m (Some a) q (entry_of a e :: l).

(** The chain from [p] ends in NULL and holds the entries [l]. *)
Definition chain (m : gmap addr ticker_event_t) (p : option addr) (l : list entry) : Prop :=
  lseg m p None l.

(** The chain from [p], computed with at most [fuel] steps. *)
Fixpoint walk (fuel : nat) (m : gmap addr ticker_event_t) (p : option addr)
    : option (list entry) :=
  match p with
  | None => Some []
  | Some a =>
    match fuel with
    | O => None
    | S fuel' =>
      match m !! a with
      | None => None
      | Some e =>
        match walk fuel' m (next e) with
        | Some l => Some (entry_of a e :: l)
        | None => None
        end
      end
    end
  end.

(** A handler that leaves the queue alone: calling it returns, and neither
    the records, nor the head, nor the registered handler change. *)
Definition handler_quiet (call : fnptr -> Z -> State -> outcome State) : Prop :=
  forall f i st,
    exists st', call f i st = Ret st' /\ events st' = events st /\
                head st' = head st /\ event_handler st' = event_handler st.

(** The ids the handler is called with when the entries [l] are dispatched. *)
Definition dispatched (handler : option fnptr) (l : list entry) : list Z :=
  match handler with
  | Some _ => e_id <$> l
  | None => []
  end.

(** The last hardware call of a drain that stops with [l] still queued. *)
Definition final_arming (l : list entry) : hw_call :=
  match l with
  | [] => HwDisableInterrupt
  | y :: _ => HwSetInterrupt (e_time y)
  end.

(** The entries [l] are in non-decreasing order of age, seen from [a] on a
    counter of [W] bits. *)
Definition age_sorted (W a : Z) (l : list entry) : Prop :=
  StronglySorted (fun x y => age W a (e_time x) <= age W a (e_time y)) l.

(** Whether a hardware call arms or disarms the compare interrupt. *)
Definition is_arming (c : hw_call) : bool :=
  match c with
  | HwSetInterrupt _ | HwDisableInterrupt => true
  | _ => false
  end.

(** The arming or disarming call the hardware saw last, if any. *)
Definition last_arming (tr : list hw_call) : option hw_call :=
  last (filter (fun c => is_arming c = true) tr).

(** The hardware is armed for the timestamp of the first entry of [l], or
    disarmed when [l] is empty. *)
Definition arming_agrees (st : State) (l : list entry) : Prop :=
  last_arming (trace st) = Some (final_arming l).

(** A caller making one [ticker_insert_event] call after the other, for the
    records, timestamps and ids listed. *)
Fixpoint insert_all (timestamp_bits mask delay : Z) (interface_read : nat -> Z)
    (fuel : nat) (reqs : list (addr * Z * Z)) (st : State) : outcome State :=
  match reqs with
  | [] => Ret st
  | (obj, ts, id_) :: rest =>
    let* st := ticker_insert_event timestamp_bits mask delay interface_read
                                   fuel obj ts id_ st in
    insert_all timestamp_bits mask delay interface_read fuel rest st
  end.

(** The entry a request leaves in the queue. *)
Definition request_entry (timestamp_bits mask : Z) (r : addr * Z * Z) : entry :=
  mk_entry (r.1.1) (to_timestamp timestamp_bits (Z.land (r.1.2) mask)) (r.2).

(** ** Scenarios

    One configuration of the constants of ticker_api.h (a 32-bit counter
    used in full, events up to 10 ticks ahead or up to 65535 ticks late are
    due, 10 ticks of expected ISR delay), a counter that stands still, and a
    few queues. *)

Definition ex_bits : Z := 32.
Definition ex_mask : Z := 0xFFFFFFFF.
Definition ex_future_tolerance : Z := 10.
Definition ex_past_tolerance : Z := 0xFFFF0000.
Definition ex_isr_delay : Z := 10.

Definition fixed_clock (now : Z) : nat -> Z := fun _ => now.

(** A handler that returns without calling the ticker API. *)
Definition handler_returns : fnptr -> Z -> State -> outcome State :=
  fun _ _ st => Ret st.

Definition ex_insert (now : Z) : nat -> addr -> Z -> Z -> State -> outcome State :=
  ticker_insert_event ex_bits ex_mask ex_isr_delay (fixed_clock now).

Definition ex_irq (now : Z) (call : fnptr -> Z -> State -> outcome State)
    : nat -> State -> outcome (State * list Z) :=
  ticker_irq_handler ex_mask ex_future_tolerance ex_past_tolerance
                     (fixed_clock now) call.

Definition blank : ticker_event_t := mk_event 0 0 None.

(** Three records of the caller, none linked. *)
Definition ex_unlinked : State :=
  mk_state (<[1%positive := blank]> (<[2%positive := blank]>
             (<[3%positive := blank]> ∅)))
           None (Some 1%positive) 0 [].

(** Record 1 (due at 100) linked in front of record 2 (due at 105);
    record 3 is not linked. *)
Definition ex_two : State :=
  mk_state (<[1%positive := mk_event 100 11 (Some 2%positive)]>
             (<[2%positive := mk_event 105 12 None]>
               (<[3%positive := blank]> ∅)))
           (Some 1%positive) (Some 1%positive) 0 [].

Definition ex_two_entries : list entry :=
  [mk_entry 1 100 11; mk_entry 2 105 12].

(** One event with timestamp 0. *)
Definition ex_stale : State :=
  mk_state (<[1%positive := mk_event 0 11 None]> ∅)
           (Some 1%positive) (Some 1%positive) 0 [].

(** One event due at 1000, and a handler that inserts the same record
    again for 1000. *)
Definition ex_periodic : State :=
  mk_state (<[1%positive := mk_event 1000 7 None]> ∅)
           (Some 1%positive) (Some 1%positive) 0 [].

Definition ex_reinsert : fnptr -> Z -> State -> outcome State :=
  fun _ i st => ex_insert 1000 1%nat 1%positive 1000 i st.

(** Timestamps 6, 5 and 1000 inserted while [read()] gives 15, so that the
    adjusted reference time is 5. *)
Definition ex_three_inserts : outcome State :=
  let* s := ex_insert 15 4%nat 1%positive 6 101 ex_unlinked in
  let* s := ex_insert 15 4%nat 2%positive 5 102 s in
  ex_insert 15 4%nat 3%positive 1000 103 s.

(** Timestamps 12 and 5 inserted while [read()] gives 20. *)
Definition ex_wrapped_pair : outcome State :=
  let* s := ex_insert 20 4%nat 1%positive 12 101 ex_unlinked in
  ex_insert 20 4%nat 2%positive 5 102 s.

(** Events A for 100, B for 50 and C for 150, inserted in that order while
    [read()] gives 20. *)
Definition ex_abc : outcome State :=
  let* s := ex_insert 20 4%nat 1%positive 100 1 ex_unlinked in
  let* s := ex_insert 20 4%nat 2%positive 50 2 s in
  ex_insert 20 4%nat 3%positive 150 3 s.

(** Record 1 (due at 100) queued alone; record 2 is not linked. *)
Definition ex_one : State :=
  mk_state (<[1%positive := mk_event 100 11 None]>
             (<[2%positive := blank]> ∅))
           (Some 1%positive) (Some 1%positive) 0 [].

(** [ex_two] with the hardware armed for its head. *)
Definition ex_two_armed : State :=
  mk_state (events ex_two) (head ex_two) (event_handler ex_two) 0
           [HwSetInterrupt 100].

(** Three requests: records 1, 2 and 3 for 6, 8 and 7. *)
Definition ex_requests : list (addr * Z * Z) :=
  [(1%positive, 6, 101); (2%positive, 8, 102); (3%positive, 7, 103)].

(** A handler that, called for id 7, inserts record 1 again for 1003 with
    id 8, and otherwise returns. *)
Definition ex_insert_once : fnptr -> Z -> State -> outcome State :=
  fun _ i st =>
    if i =? 7 then ex_insert 1000 1%nat 1%positive 1003 8 st else Ret st.

(** ** Lemmas on the predicate *)

Lemma age_cases W s x :
  0 <= s < 2 ^ W -> 0 <= x < 2 ^ W ->
  age W s x = if x <? s then x - s + 2 ^ W else x - s.
Proof.
  intros Hs Hx. unfold age.
  destruct (Z.ltb_spec x s).
  - symmetry. apply (Z.mod_unique _ _ (-1)); lia.
  - apply Z.mod_small. lia.
Qed.

Ltac unbool :=
  unfold ticker_timeIsInPeriod;
  rewrite ?Z.geb_leb, ?Z.gtb_ltb;
  repeat match goal with
         | |- context [Z.leb ?a ?b] => destruct (Z.leb_spec a b)
         | |- context [Z.ltb ?a ?b] => destruct (Z.ltb_spec a b)
         end; simpl.

Lemma timeIsInPeriod_lt_age (W start time end_ : Z) :
  0 <= start < 2 ^ W -> 0 <= time < 2 ^ W -> 0 <= end_ < 2 ^ W ->
  end_ <> start ->
  ticker_timeIsInPeriod start time end_ = true <->
  age W start time < age W start end_.
Proof.
  intros Hs Ht He Hne. rewrite !age_cases by assumption.
  unbool; split; intros; try discriminate; try reflexivity; lia.
Qed.

(** C1. For [end] different from [start] the predicate is the strict
    comparison of ages, [(time - start) mod 2^W < (end - start) mod 2^W];
    and it holds when [start], [time] and [end] are all equal. *)
Theorem timeIsInPeriod_strict_age (W start time end_ : Z) :
  0 <= start < 2 ^ W -> 0 <= time < 2 ^ W -> 0 <= end_ < 2 ^ W ->
  (end_ <> start ->
   ticker_timeIsInPeriod start time end_ = true <->
   (time - start) mod 2 ^ W < (end_ - start) mod 2 ^ W) /\
  ticker_timeIsInPeriod start start start = true.
Proof.
  intros Hs Ht He. split.
  - intros Hne. by apply timeIsInPeriod_lt_age.
  - unbool; try reflexivity; lia.
Qed.

Lemma timeIsInPeriod_strict_age_witness :
  (3 <> 250 ->
   ticker_timeIsInPeriod 250 7 3 = true <->
   (7 - 250) mod 2 ^ 8 < (3 - 250) mod 2 ^ 8) /\
  ticker_timeIsInPeriod 250 250 250 = true.
Proof. apply (timeIsInPeriod_strict_age 8 250 7 3); simpl; lia. Defined.

(** C1, as stated, fails: at [(start, time, end) = (0, 1, 1)] the ages are
    equal and the predicate is false; at [(0, 1, 0)] the age of [time] is
    the larger one and the predicate is true. *)
Lemma timeIsInPeriod_not_le_age :
  ~ (ticker_timeIsInPeriod 0 1 1 = true <->
     (1 - 0) mod 2 ^ 32 <= (1 - 0) mod 2 ^ 32) /\
  ~ (ticker_timeIsInPeriod 0 1 0 = true <->
     (1 - 0) mod 2 ^ 32 <= (0 - 0) mod 2 ^ 32).
Proof.
  split.
  - intros [_ H]. specialize (H ltac:(reflexivity)). discriminate H.
  - intros [H _]. specialize (H eq_refl). vm_compute in H. apply H. reflexivity.
Qed.

(** C2. [ticker_timeIsInPeriod(s, t, t)] holds exactly when [s = t]. *)
Theorem timeIsInPeriod_self (s t : Z) :
  ticker_timeIsInPeriod s t t = true <-> s = t.
Proof.
  unbool; split; intros; try discriminate; try reflexivity; lia.
Qed.

(** C2, as stated, fails at [s = 0], [t = 1]. *)
Lemma timeIsInPeriod_self_fails : ticker_timeIsInPeriod 0 1 1 <> true.
Proof. discriminate. Qed.

(** ** Lemmas on chains *)

Lemma walk_sound fuel m p l : walk fuel m p = Some l -> chain m p l.
Proof.
  revert p l. induction fuel as [|fuel IH]; intros [a|] l H; simpl in H;
    try discriminate.
  - injection H as <-. constructor.
  - destruct (m !! a) as [e|] eqn:Ha; [|discriminate].
    destruct (walk fuel m (next e)) as [l'|] eqn:Hw; [|discriminate].
    injection H as <-. econstructor; [exact Ha|]. apply IH, Hw.
  - injection H as <-. constructor.
Qed.

Lemma chain_nil_inv m p : chain m p [] -> p = None.
Proof. intros H. inversion H. reflexivity. Qed.

Lemma chain_cons_inv m p x l :
  chain m p (x :: l) ->
  exists a e, p = Some a /\ m !! a = Some e /\ x = entry_of a e /\
              chain m (next e) l.
Proof. intros H. inversion H; subst. eauto 6. Qed.

Lemma lseg_app m p q r l1 l2 :
  lseg m p q l1 -> lseg m q r l2 -> lseg m p r (l1 ++ l2).
Proof.
  induction 1 as [|a e q l Ha _ IH]; intros H2; simpl; [assumption|].
  econstructor; [exact Ha|]. apply IH, H2.
Qed.

Lemma lseg_split m p r l1 l2 :
  lseg m p r (l1 ++ l2) -> exists q, lseg m p q l1 /\ lseg m q r l2.
Proof.
  revert p. induction l1 as [|x l1 IH]; intros p H; simpl in H.
  - exists p. split; [constructor|assumption].
  - inversion H as [|a e q l Ha Hl]; subst.
    destruct (IH _ Hl) as (q & H1 & H2).
    exists q. split; [|assumption]. econstructor; eassumption.
Qed.

Lemma lseg_frame m m' p q l :
  lseg m p q l ->
  (forall x, x ∈ l -> m' !! e_addr x = m !! e_addr x) ->
  lseg m' p q l.
Proof.
  induction 1 as [|a e q l Ha _ IH]; intros Hsame; [constructor|].
  econstructor.
  - rewrite <- Ha. apply (Hsame (entry_of a e)). apply elem_of_cons. by left.
  - apply IH. intros x Hx. apply Hsame. apply elem_of_cons. by right.
Qed.

Lemma chain_det m p l l' : chain m p l -> chain m p l' -> l = l'.
Proof.
  unfold chain. intros H. revert l'.
  remember None as r eqn:Hr.
  induction H as [p|a e q l Ha _ IH]; intros l' H'.
  - subst p. inversion H'. reflexivity.
  - subst q. inversion H' as [|a' e' q' l'' Ha' Hl']; subst.
    rewrite Ha in Ha'. injection Ha' as <-.
    f_equal. apply IH; [reflexivity|assumption].
Qed.

Lemma chain_suffix m p l1 x l2 :
  chain m p (l1 ++ x :: l2) -> chain m (Some (e_addr x)) (x :: l2).
Proof.
  intros H. apply lseg_split in H as (q & _ & H).
  inversion H; subst. simpl. assumption.
Qed.

Lemma chain_NoDup m p l : chain m p l -> NoDup (e_addr <$> l).
Proof.
  revert p. induction l as [|x l IH]; intros p H; simpl.
  - constructor.
  - inversion H as [|a e q l' Ha Hl]; subst. simpl.
    apply NoDup_cons. split; [|eapply IH; exact Hl].
    intros Hin. apply list_elem_of_fmap in Hin as (y & Hy & Hyl).
    apply list_elem_of_split in Hyl as (l1 & l2 & ->).
    pose proof (chain_suffix _ _ _ _ _ Hl) as Hs.
    rewrite <- Hy in Hs.
    pose proof (chain_det _ _ _ _ H Hs) as Heq.
    apply (f_equal length) in Heq. simpl in Heq.
    rewrite length_app in Heq. simpl in Heq. lia.
Qed.

(** ** Insertion *)

Section InsertProofs.

Variable timestamp_bits : Z.
Variable TICKER_TIME_MASK : Z.
Variable TICKER_EXPECT_ISR_DELAY : Z.
Variable interface_read : nat -> Z.

Local Abbreviation insert_event :=
  (ticker_insert_event timestamp_bits TICKER_TIME_MASK TICKER_EXPECT_ISR_DELAY
                       interface_read).

(** The scan walks past the entries the new timestamp is not ordered
    before, and stops at the first one it is ordered before. *)
Lemma insert_scan_spec (a T : Z) (st : State) (l : list entry) :
  forall (p prev : option addr) (fuel : nat),
  chain (events st) p l -> (length l < fuel)%nat ->
  exists l1 l2 p',
    l = l1 ++ l2 /\
    insert_scan fuel a T prev p st =
      Ret (from_option (fun x => Some (e_addr x)) prev (last l1), p') /\
    lseg (events st) p p' l1 /\ chain (events st) p' l2 /\
    Forall (fun y => ticker_timeIsInPeriod a T (e_time y) = false) l1 /\
    match l2 with
    | [] => True
    | y :: _ => ticker_timeIsInPeriod a T (e_time y) = true
    end.
Proof.
  induction l as [|x l IH]; intros p prev fuel Hc Hf.
  - inversion Hc; subst. exists [], [], None.
    destruct fuel; simpl; repeat split; try constructor.
  - inversion Hc as [|a0 e q l' Ha Hl]; subst.
    destruct fuel as [|fuel]; [simpl in Hf; lia|].
    simpl. unfold load. rewrite Ha. simpl.
    destruct (ticker_timeIsInPeriod a T (timestamp e)) eqn:Hp.
    + exists [], (entry_of a0 e :: l), (Some a0).
      repeat split; try constructor; assumption.
    + destruct (IH (next e) (Some a0) fuel Hl) as (l1 & l2 & p' & -> & Hs & H1 & H2 & HF & Hh).
      { simpl in Hf. lia. }
      exists (entry_of a0 e :: l1), l2, p'.
      split; [reflexivity|]. split; [|split; [|split; [|split]]];
        try assumption.
      * rewrite Hs. do 2 f_equal.
        destruct l1 as [|y l1]; [reflexivity|].
        rewrite last_cons_cons.
        destruct (last (y :: l1)) eqn:E; [reflexivity|].
        apply last_None in E. discriminate.
      * econstructor; eassumption.
      * constructor; assumption.
Qed.

Lemma insert_spec (st : State) (l : list entry) (obj : addr)
    (o : ticker_event_t) (ts id_ : Z) (fuel : nat) :
  chain (events st) (head st) l ->
  obj ∉ (e_addr <$> l) ->
  events st !! obj = Some o ->
  (length l < fuel)%nat ->
  let a := to_timestamp timestamp_bits
             (interface_read (reads st) - TICKER_EXPECT_ISR_DELAY) in
  let T := to_timestamp timestamp_bits (Z.land ts TICKER_TIME_MASK) in
  exists st' l1 l2,
    insert_event fuel obj ts id_ st = Ret st' /\
    l = l1 ++ l2 /\
    Forall (fun y => ticker_timeIsInPeriod a T (e_time y) = false) l1 /\
    match l2 with
    | [] => True
    | y :: _ => ticker_timeIsInPeriod a T (e_time y) = true
    end /\
    chain (events st') (head st') (l1 ++ mk_entry obj T id_ :: l2) /\
    head st' = match l1 with [] => Some obj | _ :: _ => head st end /\
    event_handler st' = event_handler st /\
    reads st' = S (reads st) /\
    trace st' = trace st ++
                [CpuDisableIrq; HwRead (interface_read (reads st))] ++
                match l1 with [] => [HwSetInterrupt T] | _ :: _ => [] end ++
                [CpuEnableIrq] /\
    (forall b, b <> obj -> b ∉ (e_addr <$> l) ->
               events st' !! b = events st !! b).
Proof.
  intros Hc Hobj Ho Hf a T.
  unfold ticker_insert_event, read, store_timestamp, store_id, load. simpl.
  rewrite Ho. simpl. rewrite lookup_insert_eq. simpl.
  rewrite insert_insert_eq. fold a T.
  set (m1 := <[obj := mk_event T id_ (next o)]> (events st)).
  set (st1 := set_events _ _).
  assert (Hc1 : chain (events st1) (head st) l).
  { simpl. eapply lseg_frame; [exact Hc|]. intros x Hx.
    unfold m1. apply lookup_insert_ne. intros ->. apply Hobj.
    apply list_elem_of_fmap. eauto. }
  destruct (insert_scan_spec a T st1 l (head st) None fuel Hc1 Hf)
    as (l1 & l2 & p' & -> & Hs & H1 & H2 & HF & Hh).
  change (head st1) with (head st). rewrite Hs. simpl.
  pose proof (chain_NoDup _ _ _ Hc) as Hnd.
  assert (Hobj2 : forall y, y ∈ l2 -> e_addr y <> obj).
  { intros y Hy E. apply Hobj. apply list_elem_of_fmap. exists y.
    split; [by rewrite E|]. apply elem_of_app. by right. }
  destruct (last l1) as [x|] eqn:Hl1; simpl.
  - apply last_Some in Hl1 as [l1' ->].
    apply lseg_split in H1 as (q & H1 & Hx).
    inversion Hx as [|ax ex q' lx Hax Hnil]; subst. inversion Hnil; subst.
    change (events st1) with m1 in *.
    assert (Hne : ax <> obj).
    { intros ->. apply Hobj. apply list_elem_of_fmap. exists (entry_of obj ex).
      split; [reflexivity|]. apply elem_of_app. left. apply elem_of_app.
      right. apply elem_of_cons. by left. }
    unfold store_next, load. simpl. rewrite Hax. simpl.
    rewrite lookup_insert_ne by exact Hne.
    unfold m1 at 1. rewrite lookup_insert_eq. simpl.
    set (m3 := <[obj := _]> (<[ax := _]> m1)).
    rewrite !fmap_app in Hnd. simpl in Hnd.
    apply NoDup_app in Hnd as (Hnd1 & Hd & _).
    apply NoDup_app in Hnd1 as (_ & Hd1 & _).
    assert (Hfr : forall b, b <> obj -> b <> ax -> m3 !! b = m1 !! b).
    { intros b Hb1 Hb2. unfold m3. by rewrite !lookup_insert_ne. }
    eexists _, (l1' ++ [entry_of ax ex]), l2.
    split; [reflexivity|]. split; [reflexivity|]. split; [exact HF|].
    split; [exact Hh|]. simpl. split; [|split; [|split; [|split; [|split]]]].
    + rewrite <- app_assoc. simpl. eapply lseg_app.
      * eapply lseg_frame; [exact H1|]. intros y Hy. apply Hfr.
        -- intros E. apply Hobj. rewrite <- E. apply list_elem_of_fmap.
           exists y. split; [reflexivity|]. apply elem_of_app. left.
           apply elem_of_app. by left.
        -- intros E. apply (Hd1 (e_addr y)).
           ++ apply list_elem_of_fmap. eauto.
           ++ rewrite E. apply elem_of_cons. by left.
      * apply (lseg_cons m3 ax (mk_event (timestamp ex) (id ex) (Some obj))).
        { unfold m3. rewrite lookup_insert_ne by congruence.
          apply lookup_insert_eq. }
        simpl.
        apply (lseg_cons m3 obj (mk_event T id_ (next ex))).
        { unfold m3. apply lookup_insert_eq. }
        simpl. eapply lseg_frame; [exact H2|]. intros y Hy. apply Hfr.
        -- by apply Hobj2.
        -- intros E. apply (Hd ax).
           ++ apply elem_of_app. right. apply elem_of_cons. by left.
           ++ rewrite <- E. apply list_elem_of_fmap. eauto.
    + destruct l1'; reflexivity.
    + reflexivity.
    + reflexivity.
    + rewrite <- !app_assoc. simpl. destruct l1'; reflexivity.
    + intros b Hb1 Hb2. rewrite Hfr; [|exact Hb1|].
      * unfold m1. by rewrite lookup_insert_ne.
      * intros ->. apply Hb2. rewrite !fmap_app. simpl.
        apply elem_of_app. left. apply elem_of_app. right.
        apply elem_of_cons. by left.
  - apply last_None in Hl1 as ->. inversion H1; subst.
    change (events st1) with m1 in *.
    unfold store_next, load. simpl. unfold m1 at 1.
    rewrite lookup_insert_eq. simpl.
    set (m3 := <[obj := _]> m1).
    eexists _, [], l2.
    split; [reflexivity|]. split; [reflexivity|]. split; [exact HF|].
    split; [exact Hh|]. simpl. split; [|split; [|split; [|split; [|split]]]].
    + apply (lseg_cons m3 obj (mk_event T id_ (head st))).
      { unfold m3. apply lookup_insert_eq. }
      simpl. eapply lseg_frame; [exact H2|]. intros y Hy.
      unfold m3. rewrite lookup_insert_ne; [reflexivity|].
      intros E. by apply (Hobj2 y).
    + reflexivity.
    + reflexivity.
    + reflexivity.
    + rewrite <- !app_assoc. reflexivity.
    + intros b Hb1 Hb2. unfold m3, m1. by rewrite !lookup_insert_ne.
Qed.

(** A prefix the scan cannot stop in is a prefix of what it walked past. *)
Lemma scan_prefix (P : entry -> bool) (A B l1 l2 : list entry) :
  A ++ B = l1 ++ l2 ->
  Forall (fun y => P y = false) A ->
  match l2 with [] => True | y :: _ => P y = true end ->
  exists k, l1 = A ++ k /\ B = k ++ l2.
Proof.
  revert l1. induction A as [|y A IH]; intros l1 E HA Hh; simpl in E.
  - exists l1. split; [reflexivity|assumption].
  - inversion HA as [|? ? Hy HA']; subst.
    destruct l1 as [|z l1]; simpl in E.
    + subst l2. congruence.
    + injection E as <- E.
      destruct (IH l1 E HA' Hh) as (k & -> & ->).
      exists k. split; reflexivity.
Qed.

(** C7. [set_interrupt] is called, with the normalized timestamp, exactly
    when the new event becomes the queue head; otherwise the head is left
    as it was and the call makes no arming call. *)
Theorem insert_arms_iff_head (st : State) (l : list entry) (obj : addr)
    (o : ticker_event_t) (ts id_ : Z) (fuel : nat) :
  chain (events st) (head st) l ->
  obj ∉ (e_addr <$> l) ->
  events st !! obj = Some o ->
  (length l < fuel)%nat ->
  exists st' calls,
    insert_event fuel obj ts id_ st = Ret st' /\
    trace st' = trace st ++ calls /\
    (head st' = Some obj ->
     calls = [CpuDisableIrq; HwRead (interface_read (reads st));
              HwSetInterrupt
                (to_timestamp timestamp_bits (Z.land ts TICKER_TIME_MASK));
              CpuEnableIrq]) /\
    (head st' <> Some obj ->
     head st' = head st /\
     calls = [CpuDisableIrq; HwRead (interface_read (reads st));
              CpuEnableIrq]).
Proof.
  intros Hc Hobj Ho Hf.
  destruct (insert_spec st l obj o ts id_ fuel Hc Hobj Ho Hf)
    as (st' & l1 & l2 & Hrun & -> & _ & _ & _ & Hhd & _ & _ & Htr & _).
  exists st'. eexists. split; [exact Hrun|]. split; [exact Htr|].
  destruct l1 as [|x l1]; simpl.
  - split; [reflexivity|]. intros Hn. congruence.
  - split; [|intros _; split; [exact Hhd|reflexivity]].
    intros Hh. exfalso. rewrite Hhd in Hh.
    inversion Hc as [|a e q l' Ha Hl]; subst.
    apply Hobj. simpl. apply elem_of_cons. left. congruence.
Qed.

(** C9. [ticker_timeIsInPeriod(start, time, time)] is false for
    [start <> time]; so when the adjusted reference time differs from the
    new normalized timestamp, the scan does not stop at an entry with that
    timestamp: if it did not stop before that entry, the new event is
    linked somewhere after it. *)
Theorem insert_after_equal_timestamp (st : State) (l1 l2 : list entry)
    (x : entry) (obj : addr) (o : ticker_event_t) (ts id_ : Z) (fuel : nat) :
  let a := to_timestamp timestamp_bits
             (interface_read (reads st) - TICKER_EXPECT_ISR_DELAY) in
  let T := to_timestamp timestamp_bits (Z.land ts TICKER_TIME_MASK) in
  chain (events st) (head st) (l1 ++ x :: l2) ->
  obj ∉ (e_addr <$> l1 ++ x :: l2) ->
  events st !! obj = Some o ->
  (length (l1 ++ x :: l2) < fuel)%nat ->
  e_time x = T ->
  a <> T ->
  Forall (fun y => ticker_timeIsInPeriod a T (e_time y) = false) l1 ->
  (forall start time, start <> time ->
     ticker_timeIsInPeriod start time time = false) /\
  exists st' k1 k2,
    insert_event fuel obj ts id_ st = Ret st' /\
    l2 = k1 ++ k2 /\
    chain (events st') (head st')
          (l1 ++ x :: k1 ++ mk_entry obj T id_ :: k2).
Proof.
  intros a T Hc Hobj Ho Hf Hx Hne HF.
  assert (Hself : forall start time, start <> time ->
            ticker_timeIsInPeriod start time time = false).
  { intros start time Hst. unbool; try reflexivity; lia. }
  split; [exact Hself|].
  destruct (insert_spec st _ obj o ts id_ fuel Hc Hobj Ho Hf)
    as (st' & k & k2 & Hrun & E & HF1 & Hh & Hch & _).
  fold a T in HF1, Hh, Hch.
  change (l1 ++ x :: l2) with (l1 ++ [x] ++ l2) in E.
  rewrite app_assoc in E.
  destruct (scan_prefix (fun y => ticker_timeIsInPeriod a T (e_time y))
              (l1 ++ [x]) l2 k k2 E) as (k1 & -> & ->).
  - apply Forall_app. split; [exact HF|]. constructor; [|constructor].
    rewrite Hx. apply Hself, Hne.
  - exact Hh.
  - exists st', k1, k2. split; [exact Hrun|]. split; [reflexivity|].
    rewrite <- !app_assoc in Hch. exact Hch.
Qed.

(** As long as no queued timestamp equals the adjusted reference time, an
    insertion keeps the chain in non-decreasing order of age, so that the
    head is the soonest event; events of equal age stay in insertion
    order. *)
Lemma insert_keeps_age_order (st : State) (l : list entry) (obj : addr)
    (o : ticker_event_t) (ts id_ : Z) (fuel : nat) :
  let a := to_timestamp timestamp_bits
             (interface_read (reads st) - TICKER_EXPECT_ISR_DELAY) in
  let T := to_timestamp timestamp_bits (Z.land ts TICKER_TIME_MASK) in
  0 <= timestamp_bits ->
  chain (events st) (head st) l ->
  obj ∉ (e_addr <$> l) ->
  events st !! obj = Some o ->
  (length l < fuel)%nat ->
  Forall (fun y => 0 <= e_time y < 2 ^ timestamp_bits /\ e_time y <> a) l ->
  age_sorted timestamp_bits a l ->
  exists st' l1 l2,
    insert_event fuel obj ts id_ st = Ret st' /\
    l = l1 ++ l2 /\
    chain (events st') (head st') (l1 ++ mk_entry obj T id_ :: l2) /\
    age_sorted timestamp_bits a (l1 ++ mk_entry obj T id_ :: l2) /\
    Forall (fun y => age timestamp_bits a (e_time y) <= age timestamp_bits a T) l1 /\
    Forall (fun y => age timestamp_bits a T < age timestamp_bits a (e_time y)) l2.
Proof.
  intros a T HW Hc Hobj Ho Hf Hrange Hsorted.
  destruct (insert_spec st l obj o ts id_ fuel Hc Hobj Ho Hf)
    as (st' & l1 & l2 & Hrun & -> & HF & Hh & Hch & _).
  fold a T in HF, Hh, Hch.
  assert (Hpow : 0 < 2 ^ timestamp_bits) by (apply Z.pow_pos_nonneg; lia).
  assert (Ha : 0 <= a < 2 ^ timestamp_bits) by (apply Z.mod_pos_bound, Hpow).
  assert (HT : 0 <= T < 2 ^ timestamp_bits) by (apply Z.mod_pos_bound, Hpow).
  apply Forall_app in Hrange as [Hr1 Hr2].
  apply StronglySorted_app in Hsorted as (Hcross & Hs1 & Hs2).
  assert (H1 : Forall (fun y => age timestamp_bits a (e_time y)
                                <= age timestamp_bits a T) l1).
  { apply Forall_forall. intros y Hy.
    pose proof (proj1 (Forall_forall _ _) HF y Hy) as Hp.
    pose proof (proj1 (Forall_forall _ _) Hr1 y Hy) as [Hry Hya].
    destruct (Z_lt_le_dec (age timestamp_bits a T)
                          (age timestamp_bits a (e_time y))) as [Hlt|Hle];
      [|exact Hle].
    apply (timeIsInPeriod_lt_age timestamp_bits a T (e_time y)) in Hlt;
      try assumption. simpl in Hp. congruence. }
  assert (H2 : Forall (fun y => age timestamp_bits a T
                                < age timestamp_bits a (e_time y)) l2).
  { destruct l2 as [|y l2]; [constructor|].
    apply Forall_cons in Hr2 as [[Hry Hya] _].
    apply (timeIsInPeriod_lt_age timestamp_bits a T (e_time y)) in Hh;
      try assumption.
    apply StronglySorted_cons in Hs2 as [Hy _].
    constructor; [exact Hh|].
    apply Forall_forall. intros z Hz.
    pose proof (proj1 (Forall_forall _ _) Hy z Hz). simpl in *. lia. }
  exists st', l1, l2. split; [exact Hrun|]. split; [reflexivity|].
  split; [exact Hch|]. split; [|split; assumption].
  apply StronglySorted_app. split; [|split; [exact Hs1|]].
  - intros x1 x2 Hx1 Hx2. apply elem_of_cons in Hx2 as [->|Hx2].
    + exact (proj1 (Forall_forall _ _) H1 x1 Hx1).
    + apply Hcross; assumption.
  - apply StronglySorted_cons. split; [|exact Hs2].
    apply Forall_forall. intros z Hz.
    pose proof (proj1 (Forall_forall _ _) H2 z Hz). simpl in *. lia.
Qed.

End InsertProofs.

(** ** Removal *)

(** The scan of [ticker_remove_event] returns on a chain that ends; it
    leaves the queue head, the handler and the hardware alone, and rewrites
    at most the [next] field of the record in front of [obj]. *)
Lemma remove_scan_frame (obj : addr) (st : State) (l : list entry) :
  forall (p : option addr) (fuel : nat),
  chain (events st) p l -> (length l < fuel)%nat ->
  exists st',
    remove_scan fuel obj p st = Ret st' /\
    head st' = head st /\ event_handler st' = event_handler st /\
    reads st' = reads st /\ trace st' = trace st /\
    events st' !! obj = events st !! obj /\
    (forall b,
       events st' !! b = events st !! b \/
       exists e eo,
         events st !! b = Some e /\ next e = Some obj /\
         events st !! obj = Some eo /\
         events st' !! b = Some (mk_event (timestamp e) (id e) (next eo))).
Proof.
  induction l as [|x l IH]; intros p fuel Hc Hf.
  - inversion Hc; subst. exists st. destruct fuel; simpl; repeat split; auto.
  - inversion Hc as [|a e q l' Ha Hl]; subst.
    destruct fuel as [|fuel]; [simpl in Hf; lia|].
    cbn [remove_scan]. unfold load. rewrite Ha. cbn [bind].
    destruct (decide (next e = Some obj)) as [Hn|Hn].
    + rewrite Hn in Hl. inversion Hl as [|a' eo q' l'' Hobj Hl']; subst.
      rewrite Hobj. cbn [bind]. unfold store_next, load. rewrite Ha. simpl.
      eexists. split; [reflexivity|]. simpl. repeat split.
      * destruct (decide (a = obj)) as [->|Hne].
        -- rewrite lookup_insert_eq. assert (e = eo) as -> by congruence.
           by destruct eo.
        -- by rewrite lookup_insert_ne.
      * intros b. destruct (decide (a = b)) as [->|Hne].
        -- right. exists e, eo. rewrite lookup_insert_eq. auto.
        -- left. by rewrite lookup_insert_ne.
    + apply IH; [exact Hl|]. simpl in Hf. lia.
Qed.

(** When [obj] is not linked the scan changes nothing. *)
Lemma remove_scan_absent (obj : addr) (st : State) (l : list entry) :
  forall (p : option addr) (fuel : nat),
  chain (events st) p l -> (length l < fuel)%nat ->
  obj ∉ (e_addr <$> l) ->
  remove_scan fuel obj p st = Ret st.
Proof.
  induction l as [|x l IH]; intros p fuel Hc Hf Hobj.
  - inversion Hc; subst. destruct fuel; reflexivity.
  - inversion Hc as [|a e q l' Ha Hl]; subst.
    destruct fuel as [|fuel]; [simpl in Hf; lia|].
    simpl. unfold load. rewrite Ha. simpl.
    simpl in Hobj. apply not_elem_of_cons in Hobj as [Hne Hobj].
    destruct (decide (next e = Some obj)) as [Hn|Hn].
    + exfalso. rewrite Hn in Hl. inversion Hl; subst.
      apply Hobj. simpl. apply elem_of_cons. by left.
    + apply IH; [exact Hl| |exact Hobj]. simpl in Hf. lia.
Qed.

(** The scan unlinks [x] from behind a non-empty prefix of the chain. *)
Lemma remove_scan_unlinks (st : State) (x : entry) (l2 : list entry) :
  forall (l1 : list entry) (p : option addr) (fuel : nat),
  l1 <> [] ->
  chain (events st) p (l1 ++ x :: l2) ->
  (length (l1 ++ x :: l2) < fuel)%nat ->
  exists st',
    remove_scan fuel (e_addr x) p st = Ret st' /\
    chain (events st') p (l1 ++ l2).
Proof.
  induction l1 as [|y l1 IH]; intros p fuel Hne Hc Hf; [congruence|].
  pose proof (chain_NoDup _ _ _ Hc) as Hnd.
  destruct (remove_scan_frame (e_addr x) st _ p fuel Hc Hf)
    as (st' & Hrun & _ & _ & _ & _ & _ & Hfr).
  exists st'. split; [exact Hrun|].
  simpl in Hc. destruct (chain_cons_inv _ _ _ _ Hc) as (a & e & -> & Ha & -> & Hl).
  destruct fuel as [|fuel]; [simpl in Hf; lia|].
  cbn [remove_scan] in Hrun. unfold load in Hrun. rewrite Ha in Hrun.
  cbn [bind] in Hrun.
  simpl in Hnd. apply NoDup_cons in Hnd as [Hna Hnd].
  destruct l1 as [|y' l1].
  - simpl in Hl. destruct (chain_cons_inv _ _ _ _ Hl) as (ax & ex & Hn & Hax & -> & Hl2).
    simpl in Hrun. rewrite Hn in Hrun.
    destruct (decide (Some ax = Some ax)) as [_|Hd]; [|congruence].
    unfold load in Hrun. rewrite Hax in Hrun. cbn [bind] in Hrun.
    unfold store_next, load in Hrun. rewrite Ha in Hrun. cbn [bind] in Hrun.
    injection Hrun as <-. simpl.
    apply (lseg_cons _ a (mk_event (timestamp e) (id e) (next ex))).
    { apply lookup_insert_eq. }
    simpl. eapply lseg_frame; [exact Hl2|]. intros z Hz.
    apply lookup_insert_ne. intros ->. apply Hna. simpl.
    apply elem_of_cons. right. apply list_elem_of_fmap. eauto.
  - simpl in Hl. destruct (chain_cons_inv _ _ _ _ Hl) as (a' & e' & Hn & Ha' & -> & Hl').
    assert (Hax : a' <> e_addr x).
    { intros E. simpl in Hnd. apply NoDup_cons in Hnd as [Hn' _].
      apply Hn'. rewrite fmap_app. apply elem_of_app. right. simpl.
      apply elem_of_cons. left. exact E. }
    rewrite Hn in Hrun.
    destruct (decide (Some a' = Some (e_addr x))) as [Hd|_]; [congruence|].
    destruct (IH (Some a') fuel) as (st2 & Hrun2 & Hc2); [discriminate| |simpl in Hf |- *; lia|].
    { simpl. econstructor; eassumption. }
    rewrite Hrun2 in Hrun. injection Hrun as <-.
    simpl. destruct (Hfr a) as [Hsame|(e0 & eo & He0 & Hnx & _)].
    + apply (lseg_cons _ a e); [by rewrite Hsame|]. rewrite Hn. exact Hc2.
    + rewrite Ha in He0. injection He0 as <-. congruence.
Qed.

(** [ticker_remove_event] unlinks a queued record: the chain afterwards is
    the chain before without it. *)
Lemma remove_unlinks (st : State) (l1 l2 : list entry) (x : entry)
    (fuel : nat) :
  chain (events st) (head st) (l1 ++ x :: l2) ->
  (length (l1 ++ x :: l2) < fuel)%nat ->
  exists st',
    ticker_remove_event fuel (e_addr x) st = Ret st' /\
    chain (events st') (head st') (l1 ++ l2).
Proof.
  intros Hc Hf. pose proof (chain_NoDup _ _ _ Hc) as Hnd.
  unfold ticker_remove_event. simpl.
  destruct l1 as [|y l1].
  - simpl in Hc. destruct (chain_cons_inv _ _ _ _ Hc) as (a & e & Hh & Ha & -> & Hl).
    simpl. rewrite Hh.
    destruct (decide (Some a = Some a)) as [_|Hd]; [|congruence].
    unfold load at 1. simpl. rewrite Ha. simpl.
    destruct (next e) as [h|] eqn:En.
    + destruct l2 as [|z l2]; [apply chain_nil_inv in Hl; discriminate|].
      destruct (chain_cons_inv _ _ _ _ Hl) as (h' & eh & Hh' & Hhd & -> & Hl').
      injection Hh' as <-. unfold load. simpl. rewrite Hhd. simpl.
      eexists. split; [reflexivity|]. simpl. econstructor; eassumption.
    + eexists. split; [reflexivity|]. simpl. exact Hl.
  - destruct (chain_cons_inv _ _ _ _ Hc) as (a & e & Hh & Ha & -> & Hl).
    rewrite Hh in Hc |- *.
    destruct (decide (Some a = Some (e_addr x))) as [Hd|_].
    { exfalso. injection Hd as Hd. simpl in Hnd.
      apply NoDup_cons in Hnd as [Hn _]. apply Hn.
      rewrite fmap_app. apply elem_of_app. right. simpl.
      apply elem_of_cons. left. exact Hd. }
    destruct (remove_scan_unlinks (hw CpuDisableIrq st) x l2
                (entry_of a e :: l1) (Some a) fuel)
      as (st' & Hrun & Hc'); [discriminate|exact Hc|exact Hf|].
    rewrite Hrun. simpl. eexists. split; [reflexivity|].
    simpl. pose proof (remove_scan_frame (e_addr x) (hw CpuDisableIrq st) _
                         (Some a) fuel Hc Hf) as (st2 & Hrun2 & Hhd & _).
    rewrite Hrun in Hrun2. injection Hrun2 as <-.
    rewrite Hhd. simpl. rewrite Hh. exact Hc'.
Qed.

(** C5. Removing the head arms the hardware for the new head's timestamp,
    or disables arming when no event is left; removing anything else makes
    no arming or disarming call and keeps the head. *)
Theorem remove_rearms_only_for_head (st : State) (l : list entry)
    (obj : addr) (fuel : nat) :
  chain (events st) (head st) l ->
  (length l < fuel)%nat ->
  exists st',
    ticker_remove_event fuel obj st = Ret st' /\
    (head st = Some obj ->
     match l with
     | [] => False
     | [_] =>
       head st' = None /\
       trace st' = trace st ++
                   [CpuDisableIrq; HwDisableInterrupt; CpuEnableIrq]
     | _ :: y :: _ =>
       head st' = Some (e_addr y) /\
       trace st' = trace st ++
                   [CpuDisableIrq; HwSetInterrupt (e_time y); CpuEnableIrq]
     end) /\
    (head st <> Some obj ->
     head st' = head st /\
     trace st' = trace st ++ [CpuDisableIrq; CpuEnableIrq]).
Proof.
  intros Hc Hf. unfold ticker_remove_event. simpl.
  destruct (decide (head st = Some obj)) as [Hh|Hh].
  - rewrite Hh in Hc. inversion Hc as [|a eo q l' Hobj Hl]; subst.
    unfold load at 1. simpl. rewrite Hobj. simpl.
    destruct (next eo) as [h|] eqn:En.
    + inversion Hl as [|h' eh q l'' Hhd Hl']; subst; simpl.
      unfold load. simpl. rewrite Hhd. simpl.
      eexists. split; [reflexivity|]. simpl.
      split; [|congruence]. intros _. rewrite <- !app_assoc. auto.
    + inversion Hl; subst; simpl.
      eexists. split; [reflexivity|]. simpl.
      split; [|congruence]. intros _. rewrite <- !app_assoc. auto.
  - destruct (remove_scan_frame obj (hw CpuDisableIrq st) l (head st) fuel)
      as (st' & Hrun & Hhd & _ & _ & Htr & _); [exact Hc|exact Hf|].
    simpl in Hrun. rewrite Hrun. simpl.
    eexists. split; [reflexivity|]. simpl.
    split; [congruence|]. intros _. rewrite Hhd, Htr. simpl.
    rewrite <- !app_assoc. auto.
Qed.

(** C6. Removing a record that is not linked changes neither the records,
    nor the head, nor the handler; it makes no hardware call besides
    masking and unmasking interrupts, and it returns. *)
Theorem remove_absent_noop (st : State) (l : list entry) (obj : addr)
    (fuel : nat) :
  chain (events st) (head st) l ->
  (length l < fuel)%nat ->
  obj ∉ (e_addr <$> l) ->
  exists st',
    ticker_remove_event fuel obj st = Ret st' /\
    events st' = events st /\ head st' = head st /\
    event_handler st' = event_handler st /\
    chain (events st') (head st') l /\
    trace st' = trace st ++ [CpuDisableIrq; CpuEnableIrq].
Proof.
  intros Hc Hf Hobj. unfold ticker_remove_event. simpl.
  destruct (decide (head st = Some obj)) as [Hh|Hh].
  - exfalso. rewrite Hh in Hc. inversion Hc; subst.
    apply Hobj. simpl. apply elem_of_cons. by left.
  - rewrite (remove_scan_absent obj (hw CpuDisableIrq st) l (head st) fuel);
      [|exact Hc|exact Hf|exact Hobj].
    simpl. eexists. split; [reflexivity|]. simpl.
    rewrite <- !app_assoc. auto.
Qed.

(** [ticker_remove_event] returns on a chain that ends, never touches the
    record it unlinks, and rewrites at most the [next] field of the record
    in front of it. *)
Lemma remove_event_frame (st : State) (l : list entry) (obj : addr)
    (fuel : nat) :
  chain (events st) (head st) l ->
  (length l < fuel)%nat ->
  exists st',
    ticker_remove_event fuel obj st = Ret st' /\
    events st' !! obj = events st !! obj /\
    (forall b,
       events st' !! b = events st !! b \/
       exists e eo,
         events st !! b = Some e /\ next e = Some obj /\
         events st !! obj = Some eo /\
         events st' !! b = Some (mk_event (timestamp e) (id e) (next eo))).
Proof.
  intros Hc Hf. unfold ticker_remove_event. simpl.
  destruct (decide (head st = Some obj)) as [Hh|Hh].
  - rewrite Hh in Hc. inversion Hc as [|a eo q l' Hobj Hl]; subst.
    unfold load at 1. simpl. rewrite Hobj. simpl.
    destruct (next eo) as [h|] eqn:En.
    + inversion Hl as [|h' eh q l'' Hhd Hl']; subst; simpl.
      unfold load. simpl. rewrite Hhd. simpl.
      eexists. split; [reflexivity|]. simpl. auto.
    + eexists. split; [reflexivity|]. simpl. auto.
  - destruct (remove_scan_frame obj (hw CpuDisableIrq st) l (head st) fuel)
      as (st' & Hrun & _ & _ & _ & _ & Ho & Hb); [exact Hc|exact Hf|].
    simpl in Hrun. rewrite Hrun. simpl.
    eexists. split; [reflexivity|]. simpl. auto.
Qed.

(** ** The interrupt handler *)

Lemma dispatched_nil (h : option fnptr) : dispatched h [] = [].
Proof. by destruct h. Qed.

Section IrqProofs.

Variable TICKER_TIME_MASK : Z.
Variable TICKER_FUTURE_TOLERANCE : Z.
Variable TICKER_PAST_TOLERANCE : Z.
Variable interface_read : nat -> Z.
Variable call_handler : fnptr -> Z -> State -> outcome State.

Local Abbreviation due :=
  (event_due TICKER_TIME_MASK TICKER_FUTURE_TOLERANCE TICKER_PAST_TOLERANCE).
Local Abbreviation loop :=
  (irq_loop TICKER_TIME_MASK TICKER_FUTURE_TOLERANCE TICKER_PAST_TOLERANCE
            interface_read call_handler).
Local Abbreviation irq_handler :=
  (ticker_irq_handler TICKER_TIME_MASK TICKER_FUTURE_TOLERANCE
                      TICKER_PAST_TOLERANCE interface_read call_handler).

(** One iteration that finds the head due and a handler registered. *)
Lemma irq_loop_dispatch (fuel : nat) (st : State) (log : list Z)
    (h : addr) (p : ticker_event_t) (f : fnptr) :
  head st = Some h ->
  events st !! h = Some p ->
  event_handler st = Some f ->
  due (timestamp p) (interface_read (reads st)) = true ->
  loop (S fuel) st log =
  let* st' := call_handler f (id p)
                (mk_state (events st) (next p) (event_handler st)
                          (S (reads st))
                          (trace st ++ [HwRead (interface_read (reads st))])) in
  loop fuel st' (log ++ [id p]).
Proof.
  intros Hh Hp Hf Hd. cbn [irq_loop]. rewrite Hh.
  unfold read, load. cbn [events]. rewrite Hp. cbn [bind]. rewrite Hd.
  unfold set_head. cbn [event_handler events head reads trace].
  rewrite Hf. reflexivity.
Qed.

Hypothesis quiet : handler_quiet call_handler.

(** With a handler that leaves the queue alone, the loop dispatches a
    prefix [l1] of the chain, every entry of it found due, and stops either
    at the first entry [l2] starts with, found not due, or at the end. *)
Lemma irq_loop_spec (l : list entry) :
  forall (st : State) (log : list Z) (fuel : nat),
  chain (events st) (head st) l -> (length l < fuel)%nat ->
  exists st' l1 l2,
    l = l1 ++ l2 /\
    loop fuel st log = Ret (st', log ++ dispatched (event_handler st) l1) /\
    events st' = events st /\ event_handler st' = event_handler st /\
    chain (events st') (head st') l2 /\
    last (trace st') = Some (final_arming l2) /\
    Forall (fun y => exists n, due (e_time y) (interface_read n) = true) l1 /\
    match l2 with
    | [] => True
    | y :: _ => exists n, due (e_time y) (interface_read n) = false
    end.
Proof.
  induction l as [|x l IH]; intros st log fuel Hc Hf.
  - apply chain_nil_inv in Hc as Hp.
    destruct fuel as [|fuel]; [simpl in Hf; lia|].
    exists (hw HwDisableInterrupt st), [], []. simpl. rewrite Hp.
    repeat split; auto.
    + by rewrite dispatched_nil, app_nil_r.
    + constructor.
    + apply last_snoc.
  - destruct (chain_cons_inv _ _ _ _ Hc) as (a & e & Hhd & Ha & -> & Hl).
    destruct fuel as [|fuel]; [simpl in Hf; lia|].
    cbn [irq_loop]. rewrite Hhd. unfold read, load. cbn [events].
    rewrite Ha. cbn [bind].
    destruct (event_due _ _ _ (timestamp e) (interface_read (reads st)))
      eqn:Hdue.
    + cbn [set_head event_handler].
      destruct (event_handler st) as [f|] eqn:Hf0.
      * match goal with
        | |- context [call_handler f (id e) ?s] =>
          destruct (quiet f (id e) s) as (st3 & Hcall & He3 & Hh3 & Hev3)
        end.
        rewrite Hcall. cbn [bind]. simpl in He3, Hh3, Hev3.
        destruct (IH st3 (log ++ [id e]) fuel)
          as (st' & l1 & l2 & -> & Hrun & He' & Hev' & Hc' & Hlast & HF & Hh').
        { rewrite He3, Hh3. exact Hl. }
        { simpl in Hf. lia. }
        exists st', (entry_of a e :: l1), l2.
        split; [reflexivity|]. rewrite Hrun, Hev3. simpl.
        rewrite <- app_assoc. simpl.
        repeat split; auto; try congruence.
        constructor; [eauto|exact HF].
      * match goal with
        | |- context [irq_loop _ _ _ _ _ fuel ?s log] =>
          destruct (IH s log fuel)
            as (st' & l1 & l2 & -> & Hrun & He' & Hev' & Hc' & Hlast & HF & Hh')
        end.
        { exact Hl. }
        { simpl in Hf. lia. }
        exists st', (entry_of a e :: l1), l2.
        split; [reflexivity|]. rewrite Hrun. simpl.
        simpl in He', Hev'.
        repeat split; auto; try congruence.
        constructor; [eauto|exact HF].
    + eexists _, [], (entry_of a e :: l). split; [reflexivity|].
      rewrite dispatched_nil, app_nil_r. simpl.
      split; [reflexivity|].
      repeat split; auto.
      * apply last_snoc.
      * eauto.
Qed.

(** C3. When every queued event is found due at every reading of the
    counter and the handler leaves the queue alone, one call of
    [ticker_irq_handler] calls the handler once per queued event, in chain
    order from the head, no record twice, then finds the queue empty,
    disables the interrupt and returns. *)
Theorem irq_dispatches_each_due_once (st : State) (l : list entry) (f : fnptr) :
  chain (events st) (head st) l ->
  event_handler st = Some f ->
  (forall y n, y ∈ l -> due (e_time y) (interface_read n) = true) ->
  exists st',
    irq_handler (S (length l)) st = Ret (st', e_id <$> l) /\
    length (e_id <$> l) = length l /\
    NoDup (e_addr <$> l) /\
    head st' = None /\ events st' = events st /\
    last (trace st') = Some HwDisableInterrupt.
Proof.
  intros Hc Hf Hdue.
  destruct (irq_loop_spec l (hw HwClearInterrupt st) [] (S (length l)))
    as (st' & l1 & l2 & -> & Hrun & He & _ & Hc' & Hlast & _ & Hh);
    [exact Hc|lia|].
  destruct l2 as [|y l2].
  - rewrite app_nil_r in *. exists st'.
    cbn [hw event_handler events app] in Hrun, He.
    rewrite Hf in Hrun. cbn [dispatched app] in Hrun.
    split; [exact Hrun|]. split; [apply length_fmap|].
    split; [eapply chain_NoDup; exact Hc|].
    split; [by apply chain_nil_inv in Hc'|]. split; assumption.
  - exfalso. destruct Hh as [n Hn].
    rewrite Hdue in Hn; [discriminate|].
    apply elem_of_app. right. apply elem_of_cons. by left.
Qed.

(** C8. With a handler that leaves the queue alone, the drain loop returns
    within one iteration more than there are queued events: it unlinks and
    dispatches the entries of a prefix of the chain, one per iteration, then
    arms the hardware for the first remaining entry, or disables the
    interrupt when none remains. *)
Theorem irq_terminates_when_handler_quiet (st : State) (l : list entry)
    (fuel : nat) :
  chain (events st) (head st) l ->
  (length l < fuel)%nat ->
  exists st' l1 l2,
    irq_handler fuel st = Ret (st', dispatched (event_handler st) l1) /\
    l = l1 ++ l2 /\
    chain (events st') (head st') l2 /\
    last (trace st') = Some (final_arming l2).
Proof.
  intros Hc Hf.
  destruct (irq_loop_spec l (hw HwClearInterrupt st) [] fuel)
    as (st' & l1 & l2 & -> & Hrun & _ & _ & Hc' & Hlast & _);
    [exact Hc|exact Hf|].
  exists st', l1, l2. cbn [hw event_handler app] in Hrun. auto.
Qed.

(** C10. Unlinking a record never writes to that record: after
    [ticker_remove_event] the record of [obj] is what it was, any other
    record is unchanged or was the one in front of [obj] and had only its
    [next] field set to the [next] of [obj]; and [ticker_irq_handler], with
    a handler that leaves the queue alone, changes no record at all. *)
Theorem unlink_leaves_record (st : State) (l : list entry) (obj : addr)
    (fuel : nat) :
  chain (events st) (head st) l ->
  (length l < fuel)%nat ->
  (exists st',
     ticker_remove_event fuel obj st = Ret st' /\
     events st' !! obj = events st !! obj /\
     (forall b,
        events st' !! b = events st !! b \/
        exists e eo,
          events st !! b = Some e /\ next e = Some obj /\
          events st !! obj = Some eo /\
          events st' !! b = Some (mk_event (timestamp e) (id e) (next eo)))) /\
  (exists st' ids,
     irq_handler fuel st = Ret (st', ids) /\ events st' = events st).
Proof.
  intros Hc Hf. split.
  - apply (remove_event_frame st l obj fuel Hc Hf).
  - destruct (irq_loop_spec l (hw HwClearInterrupt st) [] fuel)
      as (st' & l1 & l2 & -> & Hrun & He & _); [exact Hc|exact Hf|].
    exists st'. eexists. split; [exact Hrun|exact He].
Qed.

End IrqProofs.

(** ** The scenarios, run *)

Lemma handler_returns_quiet : handler_quiet handler_returns.
Proof. intros f i st. exists st. auto. Qed.

Lemma ex_two_chain : chain (events ex_two) (head ex_two) ex_two_entries.
Proof. apply (walk_sound 3). reflexivity. Qed.

Lemma ex_one_chain :
  chain (events ex_one) (head ex_one) ([] ++ mk_entry 1 100 11 :: []).
Proof. apply (walk_sound 3). reflexivity. Qed.

Ltac not_linked :=
  let H := fresh in
  simpl; intros H;
  repeat (apply elem_of_cons in H as [H|H]; [discriminate H|]);
  apply elem_of_nil in H; exact H.

(** Inserting record 3 for 90 into [ex_two], read at 95: it becomes the
    head and the hardware is armed for 90. *)
Lemma insert_arms_iff_head_witness :
  exists st' calls,
    ex_insert 95 3%nat 3%positive 90 13 ex_two = Ret st' /\
    trace st' = trace ex_two ++ calls /\
    (head st' = Some 3%positive ->
     calls = [CpuDisableIrq; HwRead 95; HwSetInterrupt 90; CpuEnableIrq]) /\
    (head st' <> Some 3%positive ->
     head st' = head ex_two /\
     calls = [CpuDisableIrq; HwRead 95; CpuEnableIrq]).
Proof.
  apply (insert_arms_iff_head ex_bits ex_mask ex_isr_delay (fixed_clock 95)
           ex_two ex_two_entries 3%positive blank 90 13 3%nat).
  - exact ex_two_chain.
  - not_linked.
  - reflexivity.
  - simpl. lia.
Defined.

(** Inserting record 2 for 100 behind record 1, also due at 100, read at
    105 (adjusted reference time 95). *)
Lemma insert_after_equal_timestamp_witness :
  (forall start time, start <> time ->
     ticker_timeIsInPeriod start time time = false) /\
  exists st' k1 k2,
    ex_insert 105 2%nat 2%positive 100 12 ex_one = Ret st' /\
    [] = k1 ++ k2 /\
    chain (events st') (head st')
          ([] ++ mk_entry 1 100 11 :: k1 ++ mk_entry 2 100 12 :: k2).
Proof.
  apply (insert_after_equal_timestamp ex_bits ex_mask ex_isr_delay
           (fixed_clock 105) ex_one [] [] (mk_entry 1 100 11)
           2%positive blank 100 12 2%nat).
  - exact ex_one_chain.
  - not_linked.
  - reflexivity.
  - simpl. lia.
  - reflexivity.
  - vm_compute. discriminate.
  - constructor.
Defined.

(** C9, as stated, fails: read at 110 the adjusted reference time is 100,
    and record 2 inserted for 100 is linked in front of record 1, queued
    for 100 before it. *)
Lemma insert_before_equal_timestamp :
  exists st',
    ex_insert 110 2%nat 2%positive 100 12 ex_one = Ret st' /\
    chain (events ex_one) (head ex_one) [mk_entry 1 100 11] /\
    chain (events st') (head st') [mk_entry 2 100 12; mk_entry 1 100 11].
Proof.
  eexists. split; [vm_compute; reflexivity|].
  split; apply (walk_sound 3); reflexivity.
Qed.

(** C4 fails on the code: read at 15 the adjusted reference time is 5; the
    events inserted for 6, 5 and 1000 end up in the order 1000, 5, 6 and the
    hardware is armed for 1000, although the predicate orders 6 before
    1000 and not 1000 before 6. *)
Theorem insert_breaks_order_at_reference :
  to_timestamp ex_bits (15 - ex_isr_delay) = 5 /\
  ticker_timeIsInPeriod 5 6 1000 = true /\
  ticker_timeIsInPeriod 5 1000 6 = false /\
  exists st',
    ex_three_inserts = Ret st' /\
    chain (events st') (head st')
          [mk_entry 3 1000 103; mk_entry 2 5 102; mk_entry 1 6 101] /\
    trace st' =
      [CpuDisableIrq; HwRead 15; HwSetInterrupt 6; CpuEnableIrq;
       CpuDisableIrq; HwRead 15; HwSetInterrupt 5; CpuEnableIrq;
       CpuDisableIrq; HwRead 15; HwSetInterrupt 1000; CpuEnableIrq].
Proof.
  split; [reflexivity|]. split; [reflexivity|]. split; [reflexivity|].
  eexists. split; [vm_compute; reflexivity|].
  split; [apply (walk_sound 4)|]; reflexivity.
Qed.

(** Removing the head of [ex_two]: the hardware is armed for 105. *)
Lemma remove_rearms_only_for_head_witness :
  exists st',
    ticker_remove_event 3 1%positive ex_two = Ret st' /\
    (head ex_two = Some 1%positive ->
     head st' = Some 2%positive /\
     trace st' = trace ex_two ++
                 [CpuDisableIrq; HwSetInterrupt 105; CpuEnableIrq]) /\
    (head ex_two <> Some 1%positive ->
     head st' = head ex_two /\
     trace st' = trace ex_two ++ [CpuDisableIrq; CpuEnableIrq]).
Proof.
  apply (remove_rearms_only_for_head ex_two ex_two_entries 1%positive 3).
  - exact ex_two_chain.
  - simpl. lia.
Defined.

(** Removing record 3, which is not linked in [ex_two]. *)
Lemma remove_absent_noop_witness :
  exists st',
    ticker_remove_event 3 3%positive ex_two = Ret st' /\
    events st' = events ex_two /\ head st' = head ex_two /\
    event_handler st' = event_handler ex_two /\
    chain (events st') (head st') ex_two_entries /\
    trace st' = trace ex_two ++ [CpuDisableIrq; CpuEnableIrq].
Proof.
  apply (remove_absent_noop ex_two ex_two_entries 3%positive 3).
  - exact ex_two_chain.
  - simpl. lia.
  - not_linked.
Defined.

(** Both events of [ex_two] are due at 103. *)
Lemma irq_dispatches_each_due_once_witness :
  exists st',
    ex_irq 103 handler_returns 3 ex_two = Ret (st', [11; 12]) /\
    length [11; 12] = 2%nat /\
    NoDup [1%positive; 2%positive] /\
    head st' = None /\ events st' = events ex_two /\
    last (trace st') = Some HwDisableInterrupt.
Proof.
  apply (irq_dispatches_each_due_once ex_mask ex_future_tolerance
           ex_past_tolerance (fixed_clock 103) handler_returns
           handler_returns_quiet ex_two ex_two_entries 1%positive).
  - exact ex_two_chain.
  - reflexivity.
  - intros y n Hy.
    repeat (apply elem_of_cons in Hy as [->|Hy]; [reflexivity|]).
    by apply elem_of_nil in Hy.
Defined.

(** C3, as stated, fails.  An event with timestamp 0 is not dispatched at
    time 100000, although [0 <= 100000]: the handler is not called and the
    hardware is armed for 0.  And the events inserted for 12 and 5 at time
    20 are both dispatched at time 20, the one for 12 first. *)
Lemma irq_not_by_timestamp :
  (0 <= 100000 /\
   exists st',
     ex_irq 100000 handler_returns 2 ex_stale = Ret (st', []) /\
     last (trace st') = Some (HwSetInterrupt 0)) /\
  (exists s st',
     ex_wrapped_pair = Ret s /\
     chain (events s) (head s) [mk_entry 1 12 101; mk_entry 2 5 102] /\
     ex_irq 20 handler_returns 3 s = Ret (st', [101; 102])).
Proof.
  split.
  - split; [lia|]. eexists. split; vm_compute; reflexivity.
  - eexists. eexists. split; [vm_compute; reflexivity|].
    split; [apply (walk_sound 3); reflexivity|].
    vm_compute. reflexivity.
Qed.

(** At 92 the first event of [ex_two] is due and the second is not. *)
Lemma irq_terminates_when_handler_quiet_witness :
  exists st' l1 l2,
    ex_irq 92 handler_returns 3 ex_two =
      Ret (st', dispatched (event_handler ex_two) l1) /\
    ex_two_entries = l1 ++ l2 /\
    chain (events st') (head st') l2 /\
    last (trace st') = Some (final_arming l2).
Proof.
  apply (irq_terminates_when_handler_quiet ex_mask ex_future_tolerance
           ex_past_tolerance (fixed_clock 92) handler_returns
           handler_returns_quiet ex_two ex_two_entries 3).
  - exact ex_two_chain.
  - simpl. lia.
Defined.

Lemma ex_reinsert_step (r : nat) (t : list hw_call) :
  ex_reinsert 1%positive 7
    (mk_state (events ex_periodic) None (Some 1%positive) r t) =
  Ret (mk_state (events ex_periodic) (Some 1%positive) (Some 1%positive) (S r)
         (t ++ [CpuDisableIrq; HwRead 1000; HwSetInterrupt 1000;
                CpuEnableIrq])).
Proof.
  unfold ex_reinsert, ex_insert, ticker_insert_event, read, store_timestamp,
    store_id, load.
  cbn [hw events head reads trace event_handler].
  vm_compute (events ex_periodic !! 1%positive).
  cbn [bind set_events events head reads trace event_handler id next
       timestamp].
  rewrite lookup_insert_eq.
  cbn [bind set_events events head reads trace event_handler id next
       timestamp insert_scan].
  unfold store_next, load.
  cbn [bind hw set_head set_events events head reads trace event_handler id
       next timestamp].
  rewrite lookup_insert_eq.
  cbn [bind hw set_head set_events events head reads trace event_handler id
       next timestamp].
  change (to_timestamp ex_bits (Z.land 1000 ex_mask)) with 1000.
  unfold ex_periodic, hw, set_head, set_events, fixed_clock.
  cbn [events head reads trace event_handler].
  rewrite ?insert_insert_eq, <- ?app_assoc. reflexivity.
Qed.

(** With the re-inserting handler every iteration finds the same queue. *)
Lemma ex_periodic_loops (fuel : nat) :
  forall (r : nat) (t : list hw_call) (log : list Z),
  irq_loop ex_mask ex_future_tolerance ex_past_tolerance (fixed_clock 1000)
           ex_reinsert fuel
           (mk_state (events ex_periodic) (Some 1%positive) (Some 1%positive)
                     r t) log = OutOfFuel.
Proof.
  induction fuel as [|fuel IH]; intros r t log; [reflexivity|].
  rewrite (irq_loop_dispatch _ _ _ _ _ fuel _ log 1%positive
             (mk_event 1000 7 None) 1%positive);
    [|reflexivity|reflexivity|reflexivity|reflexivity].
  cbn [events event_handler reads trace next id].
  rewrite ex_reinsert_step. cbn [bind].
  apply IH.
Qed.

(** C8, as stated, fails: with a handler that inserts the dispatched event
    again for a time that is due, [ticker_irq_handler] uses up any amount of
    fuel: it never returns. *)
Lemma irq_never_returns_when_reinserted :
  ~ exists fuel, ex_irq 1000 ex_reinsert fuel ex_periodic <> OutOfFuel.
Proof.
  intros (fuel & H). apply H.
  unfold ex_irq, ticker_irq_handler, hw.
  change (head ex_periodic) with (Some 1%positive).
  change (event_handler ex_periodic) with (Some 1%positive).
  apply ex_periodic_loops.
Qed.

(** Removing record 2, linked behind record 1 in [ex_two], and draining
    [ex_two] at 92. *)
Lemma unlink_leaves_record_witness :
  (exists st',
     ticker_remove_event 3 2%positive ex_two = Ret st' /\
     events st' !! 2%positive = events ex_two !! 2%positive /\
     (forall b,
        events st' !! b = events ex_two !! b \/
        exists e eo,
          events ex_two !! b = Some e /\ next e = Some 2%positive /\
          events ex_two !! 2%positive = Some eo /\
          events st' !! b = Some (mk_event (timestamp e) (id e) (next eo)))) /\
  (exists st' ids,
     ex_irq 92 handler_returns 3 ex_two = Ret (st', ids) /\
     events st' = events ex_two).
Proof.
  apply (unlink_leaves_record ex_mask ex_future_tolerance ex_past_tolerance
           (fixed_clock 92) handler_returns handler_returns_quiet
           ex_two ex_two_entries 2%positive 3).
  - exact ex_two_chain.
  - simpl. lia.
Defined.

(** The order of three insertions and a drain at time 60: the chain is B, A,
    C; only B is dispatched and the hardware is armed for 100. *)
Example insert_abc_then_drain :
  exists s st',
    ex_abc = Ret s /\
    chain (events s) (head s)
          [mk_entry 2 50 2; mk_entry 1 100 1; mk_entry 3 150 3] /\
    ex_irq 60 handler_returns 4 s = Ret (st', [2]) /\
    chain (events st') (head st') [mk_entry 1 100 1; mk_entry 3 150 3] /\
    last (trace st') = Some (HwSetInterrupt 100).
Proof.
  eexists. eexists. split; [vm_compute; reflexivity|].
  split; [apply (walk_sound 4); reflexivity|].
  split; [vm_compute; reflexivity|].
  split; [apply (walk_sound 4)|]; reflexivity.
Qed.

(** * Further properties of the code *)

(** ** The predicate as an order *)

(** X1. Among timestamps different from the reference [start], the predicate is
    a strict total order: nothing is ordered before itself, two different
    timestamps are ordered one way and not the other, and the order is
    transitive. *)
Theorem timeIsInPeriod_strict_order (s x y z : Z) :
  x <> s -> y <> s -> z <> s ->
  ticker_timeIsInPeriod s x x = false /\
  (ticker_timeIsInPeriod s x y = true -> ticker_timeIsInPeriod s y x = false) /\
  (ticker_timeIsInPeriod s x y = true -> ticker_timeIsInPeriod s y z = true ->
   ticker_timeIsInPeriod s x z = true) /\
  (x <> y ->
   ticker_timeIsInPeriod s x y = true \/ ticker_timeIsInPeriod s y x = true).
Proof.
  intros Hx Hy Hz. repeat split.
  - unbool; try reflexivity; lia.
  - unbool; intros; try discriminate; try reflexivity; lia.
  - unbool; intros; try discriminate; try reflexivity; lia.
  - intros Hxy. unbool; auto; lia.
Qed.

Lemma timeIsInPeriod_strict_order_witness :
  ticker_timeIsInPeriod 250 251 251 = false /\
  (ticker_timeIsInPeriod 250 251 3 = true ->
   ticker_timeIsInPeriod 250 3 251 = false) /\
  (ticker_timeIsInPeriod 250 251 3 = true ->
   ticker_timeIsInPeriod 250 3 7 = true ->
   ticker_timeIsInPeriod 250 251 7 = true) /\
  (251 <> 3 ->
   ticker_timeIsInPeriod 250 251 3 = true \/
   ticker_timeIsInPeriod 250 3 251 = true).
Proof. apply (timeIsInPeriod_strict_order 250 251 3 7); lia. Defined.

(** X2. Off the reference, the predicate only depends on the ages: moving
    [start], [time] and [end] by the same amount around the counter does
    not change it. *)
Theorem timeIsInPeriod_rotation (W s t e k : Z) :
  0 <= s < 2 ^ W -> 0 <= t < 2 ^ W -> 0 <= e < 2 ^ W ->
  e <> s ->
  ticker_timeIsInPeriod (to_timestamp W (s + k)) (to_timestamp W (t + k))
                        (to_timestamp W (e + k)) =
  ticker_timeIsInPeriod s t e.
Proof.
  intros Hs Ht He Hne. unfold to_timestamp.
  assert (Hpow : 0 < 2 ^ W) by lia.
  assert (Hage : forall u, age W ((s + k) mod 2 ^ W) ((u + k) mod 2 ^ W)
                           = age W s u).
  { intros u. unfold age. rewrite <- Zminus_mod. f_equal. ring. }
  assert (Hne' : (e + k) mod 2 ^ W <> (s + k) mod 2 ^ W).
  { intros E. apply Hne.
    assert (Hz : age W s e = 0).
    { rewrite <- Hage. unfold age. rewrite E, Z.sub_diag. apply Z.mod_0_l. lia. }
    rewrite age_cases in Hz by assumption.
    destruct (Z.ltb_spec e s); lia. }
  pose proof (timeIsInPeriod_lt_age W s t e Hs Ht He Hne) as H1.
  pose proof (timeIsInPeriod_lt_age W _ ((t + k) mod 2 ^ W) _
                (Z.mod_pos_bound (s + k) _ Hpow)
                (Z.mod_pos_bound (t + k) _ Hpow)
                (Z.mod_pos_bound (e + k) _ Hpow) Hne') as H2.
  rewrite !Hage in H2.
  destruct (ticker_timeIsInPeriod s t e);
    destruct (ticker_timeIsInPeriod _ _ _); try reflexivity.
  - apply (proj2 H2), (proj1 H1). reflexivity.
  - symmetry. apply (proj2 H1), (proj1 H2). reflexivity.
Qed.

Lemma timeIsInPeriod_rotation_witness :
  ticker_timeIsInPeriod (to_timestamp 8 (250 + 10)) (to_timestamp 8 (3 + 10))
                        (to_timestamp 8 (7 + 10)) =
  ticker_timeIsInPeriod 250 3 7.
Proof. apply (timeIsInPeriod_rotation 8 250 3 7 10); simpl; lia. Defined.

(** ** More on insertion *)

Section InsertMore.

Variable timestamp_bits : Z.
Variable TICKER_TIME_MASK : Z.
Variable TICKER_EXPECT_ISR_DELAY : Z.
Variable interface_read : nat -> Z.

Local Abbreviation insert_event :=
  (ticker_insert_event timestamp_bits TICKER_TIME_MASK TICKER_EXPECT_ISR_DELAY
                       interface_read).
Local Abbreviation reference st :=
  (to_timestamp timestamp_bits
     (interface_read (reads st) - TICKER_EXPECT_ISR_DELAY)).
Local Abbreviation normalized ts :=
  (to_timestamp timestamp_bits (Z.land ts TICKER_TIME_MASK)).

(** X3. [ticker_insert_event] links the record in front of the first queued
    entry that the predicate orders the new timestamp before, behind every
    entry in front of that one; the entries already queued keep their order,
    timestamps and ids, the handler stays registered, the counter is read
    once, and no record outside the queue other than the new one is
    written. *)
Theorem insert_places_event (st : State) (l : list entry) (obj : addr)
    (o : ticker_event_t) (ts id_ : Z) (fuel : nat) :
  chain (events st) (head st) l ->
  obj ∉ (e_addr <$> l) ->
  events st !! obj = Some o ->
  (length l < fuel)%nat ->
  exists st' l1 l2,
    insert_event fuel obj ts id_ st = Ret st' /\
    l = l1 ++ l2 /\
    Forall (fun y => ticker_timeIsInPeriod (reference st) (normalized ts)
                       (e_time y) = false) l1 /\
    match l2 with
    | [] => True
    | y :: _ => ticker_timeIsInPeriod (reference st) (normalized ts)
                  (e_time y) = true
    end /\
    chain (events st') (head st')
          (l1 ++ mk_entry obj (normalized ts) id_ :: l2) /\
    event_handler st' = event_handler st /\
    reads st' = S (reads st) /\
    (forall b, b <> obj -> b ∉ (e_addr <$> l) ->
               events st' !! b = events st !! b).
Proof.
  intros Hc Hobj Ho Hf.
  destruct (insert_spec timestamp_bits TICKER_TIME_MASK
              TICKER_EXPECT_ISR_DELAY interface_read st l obj o ts id_ fuel
              Hc Hobj Ho Hf)
    as (st' & l1 & l2 & Hrun & E & HF & Hh & Hch & _ & Hev & Hr & _ & Hfr).
  exists st', l1, l2. auto 10.
Qed.

(** X4. An event whose normalized timestamp equals the adjusted reference time
    is linked at the head, in front of everything queued, and the hardware
    is armed for it. *)
Theorem insert_at_reference_is_head (st : State) (l : list entry) (obj : addr)
    (o : ticker_event_t) (ts id_ : Z) (fuel : nat) :
  chain (events st) (head st) l ->
  obj ∉ (e_addr <$> l) ->
  events st !! obj = Some o ->
  (length l < fuel)%nat ->
  normalized ts = reference st ->
  exists st',
    insert_event fuel obj ts id_ st = Ret st' /\
    head st' = Some obj /\
    chain (events st') (head st') (mk_entry obj (normalized ts) id_ :: l) /\
    trace st' = trace st ++
                [CpuDisableIrq; HwRead (interface_read (reads st));
                 HwSetInterrupt (normalized ts); CpuEnableIrq].
Proof.
  intros Hc Hobj Ho Hf HT.
  destruct (insert_spec timestamp_bits TICKER_TIME_MASK
              TICKER_EXPECT_ISR_DELAY interface_read st l obj o ts id_ fuel
              Hc Hobj Ho Hf)
    as (st' & l1 & l2 & Hrun & -> & HF & _ & Hch & Hhd & _ & _ & Htr & _).
  destruct l1 as [|y l1].
  - exists st'. auto.
  - exfalso. apply Forall_cons in HF as [Hy _]. rewrite HT in Hy.
    revert Hy. unbool; intros; try discriminate; lia.
Qed.

(** X5. On an empty queue the scan has nothing to walk, so any fuel will do:
    the record becomes the only entry, its [next] is NULL, and the hardware
    is armed once, for its normalized timestamp. *)
Theorem insert_into_empty (st : State) (obj : addr) (o : ticker_event_t)
    (ts id_ : Z) (fuel : nat) :
  head st = None ->
  events st !! obj = Some o ->
  insert_event fuel obj ts id_ st =
  Ret (mk_state (<[obj := mk_event (normalized ts) id_ None]> (events st))
                (Some obj) (event_handler st) (S (reads st))
                (trace st ++
                 [CpuDisableIrq; HwRead (interface_read (reads st));
                  HwSetInterrupt (normalized ts); CpuEnableIrq])).
Proof.
  intros Hh Ho.
  unfold ticker_insert_event, read, store_timestamp, store_id, load.
  cbn [hw events head reads trace event_handler]. rewrite Ho. cbn [bind].
  unfold set_events. cbn [events head reads trace event_handler].
  rewrite lookup_insert_eq. cbn [bind].
  cbn [events head reads trace event_handler id next timestamp].
  rewrite Hh.
  assert (Hs : forall a T prev s, insert_scan fuel a T prev None s = Ret (prev, None)).
  { intros. destruct fuel; reflexivity. }
  rewrite Hs. cbn [bind]. unfold store_next, load.
  cbn [hw set_head set_events events head reads trace event_handler].
  rewrite lookup_insert_eq. cbn [bind].
  cbn [hw set_head set_events events head reads trace event_handler id
       timestamp].
  rewrite !insert_insert_eq. unfold hw, set_events, set_head.
  cbn [events head reads trace event_handler].
  rewrite <- !app_assoc. reflexivity.
Qed.

Lemma last_arming_app (tr calls : list hw_call) :
  last_arming (tr ++ calls) =
  match last_arming calls with
  | Some c => Some c
  | None => last_arming tr
  end.
Proof. unfold last_arming. rewrite filter_app. apply last_app. Qed.

(** X7. Insertion keeps the hardware in step with the head: if the hardware was
    armed for the head of a non-empty queue, then after the call it is armed
    for the head again, whether the head changed or not. *)
Theorem insert_keeps_arming (st : State) (l : list entry) (obj : addr)
    (o : ticker_event_t) (ts id_ : Z) (fuel : nat) :
  chain (events st) (head st) l ->
  obj ∉ (e_addr <$> l) ->
  events st !! obj = Some o ->
  (length l < fuel)%nat ->
  (l <> [] -> arming_agrees st l) ->
  exists st' l1 l2,
    insert_event fuel obj ts id_ st = Ret st' /\
    l = l1 ++ l2 /\
    chain (events st') (head st')
          (l1 ++ mk_entry obj (normalized ts) id_ :: l2) /\
    arming_agrees st' (l1 ++ mk_entry obj (normalized ts) id_ :: l2).
Proof.
  intros Hc Hobj Ho Hf Harm.
  destruct (insert_spec timestamp_bits TICKER_TIME_MASK
              TICKER_EXPECT_ISR_DELAY interface_read st l obj o ts id_ fuel
              Hc Hobj Ho Hf)
    as (st' & l1 & l2 & Hrun & -> & _ & _ & Hch & _ & _ & _ & Htr & _).
  exists st', l1, l2. split; [exact Hrun|]. split; [reflexivity|].
  split; [exact Hch|].
  unfold arming_agrees. rewrite Htr, last_arming_app.
  destruct l1 as [|y l1]; [reflexivity|].
  simpl. apply Harm. discriminate.
Qed.

End InsertMore.

(** ** Sequences of insertions *)

Section InsertSequences.

Variable timestamp_bits : Z.
Variable TICKER_TIME_MASK : Z.
Variable TICKER_EXPECT_ISR_DELAY : Z.
Variable interface_read : nat -> Z.

Local Abbreviation insert_event :=
  (ticker_insert_event timestamp_bits TICKER_TIME_MASK TICKER_EXPECT_ISR_DELAY
                       interface_read).
Local Abbreviation insert_requests :=
  (insert_all timestamp_bits TICKER_TIME_MASK TICKER_EXPECT_ISR_DELAY
              interface_read).
Local Abbreviation entry_for :=
  (request_entry timestamp_bits TICKER_TIME_MASK).

(** One insertion into an ordered queue, with what the next insertion
    needs. *)
Lemma insert_step_sorted (st : State) (l : list entry) (obj : addr)
    (ts id_ : Z) (fuel : nat) (a : Z) :
  0 <= timestamp_bits ->
  a = to_timestamp timestamp_bits
        (interface_read (reads st) - TICKER_EXPECT_ISR_DELAY) ->
  chain (events st) (head st) l ->
  obj ∉ (e_addr <$> l) ->
  is_Some (events st !! obj) ->
  (length l < fuel)%nat ->
  Forall (fun y => 0 <= e_time y < 2 ^ timestamp_bits /\ e_time y <> a) l ->
  age_sorted timestamp_bits a l ->
  to_timestamp timestamp_bits (Z.land ts TICKER_TIME_MASK) <> a ->
  exists st' l',
    insert_event fuel obj ts id_ st = Ret st' /\
    chain (events st') (head st') l' /\
    age_sorted timestamp_bits a l' /\
    l' ≡ₚ entry_for (obj, ts, id_) :: l /\
    Forall (fun y => 0 <= e_time y < 2 ^ timestamp_bits /\ e_time y <> a) l' /\
    (forall b, b <> obj -> b ∉ (e_addr <$> l) ->
               events st' !! b = events st !! b).
Proof.
  intros HW -> Hc Hobj [o Ho] Hf Hrange Hsorted HT.
  destruct (insert_keeps_age_order timestamp_bits TICKER_TIME_MASK
              TICKER_EXPECT_ISR_DELAY interface_read st l obj o ts id_ fuel
              HW Hc Hobj Ho Hf Hrange Hsorted)
    as (st' & l1 & l2 & Hrun & -> & Hch & Hs' & _).
  destruct (insert_spec timestamp_bits TICKER_TIME_MASK
              TICKER_EXPECT_ISR_DELAY interface_read st _ obj o ts id_ fuel
              Hc Hobj Ho Hf)
    as (st2 & _ & _ & Hrun2 & _ & _ & _ & _ & _ & _ & _ & _ & Hfr).
  rewrite Hrun in Hrun2. injection Hrun2 as <-.
  exists st', (l1 ++ entry_for (obj, ts, id_) :: l2).
  split; [exact Hrun|]. split; [exact Hch|]. split; [exact Hs'|].
  split; [symmetry; apply Permutation_middle|]. split; [|exact Hfr].
  apply Forall_app in Hrange as [H1 H2].
  apply Forall_app. split; [exact H1|]. constructor; [|exact H2].
  split; [|exact HT]. apply Z.mod_pos_bound. apply Z.pow_pos_nonneg; lia.
Qed.

(** X6. With a counter that stands still, inserting any number of records that
    are not linked, for timestamps that do not normalize to the adjusted
    reference time, into a queue that is in non-decreasing order of age and
    holds no entry for the reference time: every call returns, the queue
    then holds the old entries and one entry per request, and it is still in
    non-decreasing order of age, the head being the soonest. *)
Theorem insert_all_keeps_age_order (c : Z) (reqs : list (addr * Z * Z)) :
  forall (st : State) (l : list entry) (fuel : nat),
  0 <= timestamp_bits ->
  (forall n, interface_read n = c) ->
  chain (events st) (head st) l ->
  age_sorted timestamp_bits
    (to_timestamp timestamp_bits (c - TICKER_EXPECT_ISR_DELAY)) l ->
  Forall (fun y => 0 <= e_time y < 2 ^ timestamp_bits /\
                   e_time y <>
                   to_timestamp timestamp_bits (c - TICKER_EXPECT_ISR_DELAY)) l ->
  NoDup ((fun r : addr * Z * Z => (r.1.1)) <$> reqs) ->
  Forall (fun r : addr * Z * Z =>
            ((r.1.1) ∉ (e_addr <$> l)) /\ is_Some (events st !! (r.1.1)) /\
            to_timestamp timestamp_bits (Z.land (r.1.2) TICKER_TIME_MASK) <>
            to_timestamp timestamp_bits (c - TICKER_EXPECT_ISR_DELAY)) reqs ->
  (length l + length reqs < fuel)%nat ->
  exists st' l',
    insert_requests fuel reqs st = Ret st' /\
    chain (events st') (head st') l' /\
    age_sorted timestamp_bits
      (to_timestamp timestamp_bits (c - TICKER_EXPECT_ISR_DELAY)) l' /\
    l' ≡ₚ (entry_for <$> reqs) ++ l.
Proof.
  induction reqs as [|[[obj ts] id_] rest IH];
    intros st l fuel HW Hclock Hc Hsorted Hrange Hnd Hreqs Hf.
  - exists st, l. simpl. auto.
  - simpl in Hnd. apply NoDup_cons in Hnd as [Hobj_rest Hnd].
    apply Forall_cons in Hreqs as [(Hobj & Hsome & HT) Hreqs]. simpl in *.
    assert (Ha : to_timestamp timestamp_bits (c - TICKER_EXPECT_ISR_DELAY) =
                 to_timestamp timestamp_bits
                   (interface_read (reads st) - TICKER_EXPECT_ISR_DELAY))
      by (by rewrite Hclock).
    assert (Hlen : (length l < fuel)%nat) by lia.
    destruct (insert_step_sorted st l obj ts id_ fuel _ HW Ha Hc Hobj Hsome
                Hlen Hrange Hsorted HT)
      as (st1 & l1 & Hrun & Hc1 & Hs1 & Hp1 & Hr1 & Hfr).
    destruct (IH st1 l1 fuel HW Hclock Hc1 Hs1 Hr1 Hnd)
      as (st' & l' & Hrun' & Hc' & Hs' & Hp').
    + apply Forall_forall. intros r Hr.
      pose proof (proj1 (Forall_forall _ _) Hreqs r Hr) as (Hn & Hs & Ht).
      assert (Hne : r.1.1 <> obj).
      { intros E. apply Hobj_rest. rewrite <- E.
        apply list_elem_of_fmap. eauto. }
      split; [|split; [|exact Ht]].
      * rewrite Hp1. simpl. apply not_elem_of_cons. split; assumption.
      * rewrite Hfr; assumption.
    + rewrite Hp1. simpl. lia.
    + exists st', l'. rewrite Hrun. simpl.
      split; [exact Hrun'|]. split; [exact Hc'|]. split; [exact Hs'|].
      rewrite Hp', Hp1. symmetry. apply Permutation_middle.
Qed.

End InsertSequences.

(** ** More on removal *)

(** What [ticker_remove_event] does for a queued record, in full. *)
Lemma remove_spec (st : State) (l1 l2 : list entry) (x : entry) (fuel : nat) :
  chain (events st) (head st) (l1 ++ x :: l2) ->
  (length (l1 ++ x :: l2) < fuel)%nat ->
  exists st',
    ticker_remove_event fuel (e_addr x) st = Ret st' /\
    chain (events st') (head st') (l1 ++ l2) /\
    event_handler st' = event_handler st /\
    reads st' = reads st /\
    trace st' = trace st ++ [CpuDisableIrq] ++
                match l1 with [] => [final_arming l2] | _ :: _ => [] end ++
                [CpuEnableIrq] /\
    events st' !! e_addr x = events st !! e_addr x.
Proof.
  intros Hc Hf.
  destruct (remove_unlinks st l1 l2 x fuel Hc Hf) as (st' & Hrun & Hc').
  destruct (remove_event_frame st _ (e_addr x) fuel Hc Hf)
    as (st2 & Hrun2 & Hx & _).
  rewrite Hrun in Hrun2. injection Hrun2 as <-.
  exists st'. split; [exact Hrun|]. split; [exact Hc'|].
  pose proof (chain_NoDup _ _ _ Hc) as Hnd.
  unfold ticker_remove_event in Hrun. cbn [hw head] in Hrun.
  destruct l1 as [|y l1].
  - simpl in Hc.
    destruct (chain_cons_inv _ _ _ _ Hc) as (a & e & Hh & Ha & -> & Hl).
    simpl in Hrun. rewrite Hh in Hrun.
    destruct (decide (Some a = Some a)) as [_|Hd]; [|congruence].
    unfold load at 1 in Hrun. simpl in Hrun. rewrite Ha in Hrun.
    simpl in Hrun.
    destruct (next e) as [h|] eqn:En.
    + destruct l2 as [|z l2]; [apply chain_nil_inv in Hl; discriminate|].
      destruct (chain_cons_inv _ _ _ _ Hl) as (h' & eh & Hh' & Hhd & -> & Hl').
      injection Hh' as <-. unfold load in Hrun. simpl in Hrun.
      rewrite Hhd in Hrun. simpl in Hrun. injection Hrun as <-. simpl.
      rewrite <- !app_assoc. auto.
    + assert (l2 = []) as -> by (inversion Hl; reflexivity).
      injection Hrun as <-. simpl. rewrite <- !app_assoc. auto.
  - destruct (chain_cons_inv _ _ _ _ Hc) as (a & e & Hh & Ha & -> & Hl).
    rewrite Hh in Hrun, Hc.
    destruct (decide (Some a = Some (e_addr x))) as [Hd|_].
    { exfalso. injection Hd as Hd. simpl in Hnd.
      apply NoDup_cons in Hnd as [Hn _]. apply Hn.
      rewrite fmap_app. apply elem_of_app. right. simpl.
      apply elem_of_cons. left. exact Hd. }
    destruct (remove_scan_frame (e_addr x) (hw CpuDisableIrq st) _ (Some a)
                fuel Hc Hf) as (st3 & Hrun3 & _ & Hev & Hrd & Htr & _).
    cbn [events] in Hrun. rewrite Hrun3 in Hrun. cbn [bind] in Hrun.
    injection Hrun as <-. simpl. rewrite Hev, Hrd, Htr. simpl.
    rewrite <- !app_assoc. auto.
Qed.

(** When [obj] is not linked, [ticker_remove_event] only masks and unmasks
    interrupts. *)
Lemma remove_absent_state (st : State) (l : list entry) (obj : addr)
    (fuel : nat) :
  chain (events st) (head st) l ->
  (length l < fuel)%nat ->
  obj ∉ (e_addr <$> l) ->
  ticker_remove_event fuel obj st = Ret (hw CpuEnableIrq (hw CpuDisableIrq st)).
Proof.
  intros Hc Hf Hobj. unfold ticker_remove_event. cbn [hw head].
  destruct (decide (head st = Some obj)) as [Hh|Hh].
  - exfalso. rewrite Hh in Hc. inversion Hc; subst.
    apply Hobj. simpl. apply elem_of_cons. by left.
  - rewrite (remove_scan_absent obj _ l (head st) fuel);
      [reflexivity|exact Hc|exact Hf|exact Hobj].
Qed.

(** X8. Removing a queued record unlinks just that record: the other entries
    stay queued in their order with their timestamps and ids, the record is
    no longer in the chain, its own fields are what they were, and the
    handler stays registered. *)
Theorem remove_event_unlinks (st : State) (l1 l2 : list entry) (x : entry)
    (fuel : nat) :
  chain (events st) (head st) (l1 ++ x :: l2) ->
  (length (l1 ++ x :: l2) < fuel)%nat ->
  exists st',
    ticker_remove_event fuel (e_addr x) st = Ret st' /\
    chain (events st') (head st') (l1 ++ l2) /\
    (e_addr x ∉ (e_addr <$> l1 ++ l2)) /\
    events st' !! e_addr x = events st !! e_addr x /\
    event_handler st' = event_handler st.
Proof.
  intros Hc Hf.
  destruct (remove_spec st l1 l2 x fuel Hc Hf)
    as (st' & Hrun & Hc' & Hev & _ & _ & Hx).
  exists st'. split; [exact Hrun|]. split; [exact Hc'|].
  split; [|split; assumption].
  pose proof (chain_NoDup _ _ _ Hc) as Hnd.
  rewrite fmap_app in Hnd. simpl in Hnd.
  apply NoDup_app in Hnd as (_ & Hd & Hnd2).
  apply NoDup_cons in Hnd2 as [Hx2 _].
  rewrite fmap_app. intros Hin. apply elem_of_app in Hin as [Hin|Hin].
  - apply (Hd _ Hin). apply elem_of_cons. by left.
  - exact (Hx2 Hin).
Qed.

(** X9. Removal keeps the hardware in step with the head: removing the head
    arms it for the new head, or disarms it when nothing remains; removing
    another record leaves it armed for the head it was armed for. *)
Theorem remove_keeps_arming (st : State) (l1 l2 : list entry) (x : entry)
    (fuel : nat) :
  chain (events st) (head st) (l1 ++ x :: l2) ->
  (length (l1 ++ x :: l2) < fuel)%nat ->
  (l1 <> [] -> arming_agrees st (l1 ++ x :: l2)) ->
  exists st',
    ticker_remove_event fuel (e_addr x) st = Ret st' /\
    chain (events st') (head st') (l1 ++ l2) /\
    arming_agrees st' (l1 ++ l2).
Proof.
  intros Hc Hf Harm.
  destruct (remove_spec st l1 l2 x fuel Hc Hf)
    as (st' & Hrun & Hc' & _ & _ & Htr & _).
  exists st'. split; [exact Hrun|]. split; [exact Hc'|].
  unfold arming_agrees in *. rewrite Htr, last_arming_app.
  destruct l1 as [|y l1]; simpl.
  - by destruct l2.
  - apply Harm. discriminate.
Qed.

(** X10. Removing the same record a second time changes nothing: the second call
    only masks and unmasks interrupts. *)
Theorem remove_twice (st : State) (l1 l2 : list entry) (x : entry)
    (fuel : nat) :
  chain (events st) (head st) (l1 ++ x :: l2) ->
  (length (l1 ++ x :: l2) < fuel)%nat ->
  exists st1,
    ticker_remove_event fuel (e_addr x) st = Ret st1 /\
    ticker_remove_event fuel (e_addr x) st1 =
      Ret (hw CpuEnableIrq (hw CpuDisableIrq st1)).
Proof.
  intros Hc Hf.
  destruct (remove_spec st l1 l2 x fuel Hc Hf) as (st1 & Hrun & Hc1 & _).
  exists st1. split; [exact Hrun|].
  apply (remove_absent_state st1 (l1 ++ l2)); [exact Hc1| |].
  - rewrite length_app in *. simpl in Hf. lia.
  - pose proof (chain_NoDup _ _ _ Hc) as Hnd.
    rewrite fmap_app in Hnd. simpl in Hnd.
    apply NoDup_app in Hnd as (_ & Hd & Hnd2).
    apply NoDup_cons in Hnd2 as [Hx2 _].
    rewrite fmap_app. intros Hin. apply elem_of_app in Hin as [Hin|Hin].
    + apply (Hd _ Hin). apply elem_of_cons. by left.
    + exact (Hx2 Hin).
Qed.

(** ** Insertion followed by removal *)

Section InsertRemove.

Variable timestamp_bits : Z.
Variable TICKER_TIME_MASK : Z.
Variable TICKER_EXPECT_ISR_DELAY : Z.
Variable interface_read : nat -> Z.

Local Abbreviation insert_event :=
  (ticker_insert_event timestamp_bits TICKER_TIME_MASK TICKER_EXPECT_ISR_DELAY
                       interface_read).

(** X11. Inserting a record and removing it again gives back the queue as it
    was: the same entries (addresses, timestamps and ids) in the same order,
    the same handler, and the hardware armed for the head again. *)
Theorem insert_then_remove (st : State) (l : list entry) (obj : addr)
    (o : ticker_event_t) (ts id_ : Z) (fuel : nat) :
  chain (events st) (head st) l ->
  obj ∉ (e_addr <$> l) ->
  events st !! obj = Some o ->
  (S (length l) < fuel)%nat ->
  (l <> [] -> arming_agrees st l) ->
  exists st1 st2,
    insert_event fuel obj ts id_ st = Ret st1 /\
    ticker_remove_event fuel obj st1 = Ret st2 /\
    chain (events st2) (head st2) l /\
    event_handler st2 = event_handler st /\
    arming_agrees st2 l.
Proof.
  intros Hc Hobj Ho Hf Harm.
  destruct (insert_spec timestamp_bits TICKER_TIME_MASK
              TICKER_EXPECT_ISR_DELAY interface_read st l obj o ts id_ fuel
              Hc Hobj Ho ltac:(lia))
    as (st1 & l1 & l2 & Hrun & -> & _ & _ & Hch & _ & Hev & _ & Htr & _).
  set (x := mk_entry obj _ id_) in *.
  destruct (remove_spec st1 l1 l2 x fuel Hch)
    as (st2 & Hrun2 & Hc2 & Hev2 & _ & Htr2 & _).
  { rewrite length_app in *. simpl in *. lia. }
  exists st1, st2. split; [exact Hrun|]. split; [exact Hrun2|].
  split; [exact Hc2|]. split; [congruence|].
  unfold arming_agrees in *. rewrite Htr2, Htr, !last_arming_app.
  destruct l1 as [|y l1]; simpl.
  - by destruct l2.
  - apply Harm. discriminate.
Qed.

End InsertRemove.

(** ** More on the interrupt handler *)

Section IrqMore.

Variable TICKER_TIME_MASK : Z.
Variable TICKER_FUTURE_TOLERANCE : Z.
Variable TICKER_PAST_TOLERANCE : Z.
Variable interface_read : nat -> Z.
Variable call_handler : fnptr -> Z -> State -> outcome State.

Local Abbreviation due :=
  (event_due TICKER_TIME_MASK TICKER_FUTURE_TOLERANCE TICKER_PAST_TOLERANCE).
Local Abbreviation loop :=
  (irq_loop TICKER_TIME_MASK TICKER_FUTURE_TOLERANCE TICKER_PAST_TOLERANCE
            interface_read call_handler).
Local Abbreviation irq_handler :=
  (ticker_irq_handler TICKER_TIME_MASK TICKER_FUTURE_TOLERANCE
                      TICKER_PAST_TOLERANCE interface_read call_handler).

(** X12. The test for a due event only looks at the difference between the
    timestamp and the counter modulo [2^32]: moving both by the same amount,
    or the timestamp by a multiple of [2^32], does not change it. *)
Theorem event_due_wraps (ts now k j : Z) :
  event_due TICKER_TIME_MASK TICKER_FUTURE_TOLERANCE TICKER_PAST_TOLERANCE
            (ts + k + j * 2 ^ 32) (now + k) =
  event_due TICKER_TIME_MASK TICKER_FUTURE_TOLERANCE TICKER_PAST_TOLERANCE
            ts now.
Proof.
  unfold event_due.
  replace (ts + k + j * 2 ^ 32 - (now + k)) with (ts - now + j * 2 ^ 32)
    by ring.
  rewrite Z_mod_plus_full. reflexivity.
Qed.

(** One iteration that finds the queue empty or its head not due. *)
Lemma irq_loop_stop (fuel : nat) (st : State) (log : list Z) (l : list entry) :
  chain (events st) (head st) l ->
  match l with
  | [] => True
  | y :: _ => due (e_time y) (interface_read (reads st)) = false
  end ->
  exists st',
    loop (S fuel) st log = Ret (st', log) /\
    events st' = events st /\ head st' = head st /\
    event_handler st' = event_handler st /\
    last (trace st') = Some (final_arming l).
Proof.
  intros Hc Hnd. cbn [irq_loop]. destruct l as [|y l].
  - apply chain_nil_inv in Hc. rewrite Hc.
    eexists. split; [reflexivity|]. simpl. rewrite last_snoc. auto.
  - destruct (chain_cons_inv _ _ _ _ Hc) as (a & e & Hh & Ha & -> & _).
    rewrite Hh. unfold read, load. cbn [events]. rewrite Ha. cbn [bind].
    simpl in Hnd. rewrite Hnd.
    eexists. split; [reflexivity|]. simpl. rewrite last_snoc. auto.
Qed.

(** With no handler registered the loop unlinks the due entries without
    calling anything. *)
Lemma irq_loop_no_handler (l : list entry) :
  forall (st : State) (log : list Z) (fuel : nat),
  event_handler st = None ->
  chain (events st) (head st) l -> (length l < fuel)%nat ->
  exists st' l1 l2,
    l = l1 ++ l2 /\
    loop fuel st log = Ret (st', log) /\
    events st' = events st /\ event_handler st' = None /\
    chain (events st') (head st') l2 /\
    last (trace st') = Some (final_arming l2) /\
    Forall (fun y => exists n, due (e_time y) (interface_read n) = true) l1 /\
    match l2 with
    | [] => True
    | y :: _ => exists n, due (e_time y) (interface_read n) = false
    end.
Proof.
  induction l as [|x l IH]; intros st log fuel Hev Hc Hf.
  - destruct fuel as [|fuel]; [simpl in Hf; lia|].
    destruct (irq_loop_stop fuel st log [] Hc I)
      as (st' & Hrun & He & Hh & Hv & Hl).
    exists st', [], []. rewrite Hh, He. repeat split; auto. congruence.
  - destruct (chain_cons_inv _ _ _ _ Hc) as (a & e & Hhd & Ha & -> & Hl).
    destruct fuel as [|fuel]; [simpl in Hf; lia|].
    destruct (event_due TICKER_TIME_MASK TICKER_FUTURE_TOLERANCE
                TICKER_PAST_TOLERANCE (timestamp e)
                (interface_read (reads st))) eqn:Hdue.
    + cbn [irq_loop]. rewrite Hhd. unfold read, load. cbn [events].
      rewrite Ha. cbn [bind]. rewrite Hdue.
      cbn [set_head event_handler]. rewrite Hev.
      match goal with
      | |- context [irq_loop _ _ _ _ _ fuel ?s log] =>
        destruct (IH s log fuel)
          as (st' & l1 & l2 & -> & Hrun & He' & Hev' & Hc' & Hlast & HF & Hh')
      end.
      { reflexivity. }
      { exact Hl. }
      { simpl in Hf. lia. }
      exists st', (entry_of a e :: l1), l2.
      split; [reflexivity|]. rewrite Hrun. simpl in He'.
      repeat split; auto. constructor; [eauto|exact HF].
    + destruct (irq_loop_stop fuel st log (entry_of a e :: l) Hc Hdue)
        as (st' & Hrun & He & Hh & Hv & Hlast).
      exists st', [], (entry_of a e :: l). rewrite Hh, He.
      repeat split; auto; [congruence|eauto].
Qed.

(** X13. After [ticker_set_handler(data, NULL)] a drain calls no handler,
    whatever function pointers may do: it still unlinks the entries it finds
    due, leaves every record as it is, and arms the hardware for the first
    entry that is not due, or disarms it when the queue is drained. *)
Theorem irq_with_null_handler (st : State) (l : list entry) (fuel : nat) :
  chain (events st) (head st) l ->
  (length l < fuel)%nat ->
  exists st' l1 l2,
    irq_handler fuel (ticker_set_handler None st) = Ret (st', []) /\
    l = l1 ++ l2 /\
    events st' = events st /\
    chain (events st') (head st') l2 /\
    last (trace st') = Some (final_arming l2) /\
    Forall (fun y => exists n, due (e_time y) (interface_read n) = true) l1 /\
    match l2 with
    | [] => True
    | y :: _ => exists n, due (e_time y) (interface_read n) = false
    end.
Proof.
  intros Hc Hf.
  destruct (irq_loop_no_handler l
              (hw HwClearInterrupt (ticker_set_handler None st)) [] fuel)
    as (st' & l1 & l2 & -> & Hrun & He & _ & Hc' & Hlast & HF & Hh);
    [reflexivity|exact Hc|exact Hf|].
  exists st', l1, l2. auto 10.
Qed.

(** X14. With a counter that stands still and a handler that leaves the queue
    alone, a second drain right after the first dispatches nothing: it
    finds the same head, changes no record and arms the hardware for the
    same timestamp again. *)
Theorem irq_twice (c : Z) (st : State) (l : list entry) (fuel : nat) :
  handler_quiet call_handler ->
  (forall n, interface_read n = c) ->
  chain (events st) (head st) l ->
  (length l < fuel)%nat ->
  exists st1 ids l2 st2,
    irq_handler fuel st = Ret (st1, ids) /\
    chain (events st1) (head st1) l2 /\
    irq_handler fuel st1 = Ret (st2, []) /\
    events st2 = events st1 /\ head st2 = head st1 /\
    last (trace st2) = Some (final_arming l2).
Proof.
  intros Hq Hclock Hc Hf.
  destruct (irq_loop_spec TICKER_TIME_MASK TICKER_FUTURE_TOLERANCE
              TICKER_PAST_TOLERANCE interface_read call_handler Hq l
              (hw HwClearInterrupt st) [] fuel Hc Hf)
    as (st1 & l1 & l2 & -> & Hrun & _ & _ & Hc1 & _ & _ & Hnd).
  destruct fuel as [|fuel]; [simpl in Hf; lia|].
  destruct (irq_loop_stop fuel (hw HwClearInterrupt st1) [] l2 Hc1)
    as (st2 & Hrun2 & He & Hh & _ & Hlast).
  { destruct l2 as [|y l2]; [exact I|]. destruct Hnd as [n Hn].
    rewrite Hclock in *. exact Hn. }
  exists st1, (dispatched (event_handler st) l1), l2, st2.
  split; [exact Hrun|]. split; [exact Hc1|]. split; [exact Hrun2|]. auto.
Qed.

Variable timestamp_bits : Z.
Variable TICKER_EXPECT_ISR_DELAY : Z.

(** X15. An event that the handler inserts while the queue is drained is
    dispatched by the same call when it is found due: the loop looks at the
    head again after every handler call.  Here the queue holds one due
    event, the handler called for it inserts a record (possibly the very
    record just dispatched) and the handler called for the new id leaves the
    queue alone. *)
Theorem irq_dispatches_event_inserted_by_handler (st : State) (h obj : addr)
    (p o : ticker_event_t) (f : fnptr) (ts id2 : Z) (k fuel' : nat) :
  head st = Some h ->
  events st !! h = Some p ->
  next p = None ->
  event_handler st = Some f ->
  events st !! obj = Some o ->
  due (timestamp p) (interface_read (reads st)) = true ->
  (forall s, call_handler f (id p) s =
             ticker_insert_event timestamp_bits TICKER_TIME_MASK
               TICKER_EXPECT_ISR_DELAY interface_read (S fuel') obj ts id2 s) ->
  (forall s, call_handler f id2 s = Ret s) ->
  due (to_timestamp timestamp_bits (Z.land ts TICKER_TIME_MASK))
      (interface_read (S (S (reads st)))) = true ->
  exists st',
    irq_handler (S (S (S k))) st = Ret (st', [id p; id2]) /\
    head st' = None /\
    last (trace st') = Some HwDisableInterrupt.
Proof.
  intros Hh Hp Hn Hf Ho Hd1 Hins Hret Hd2.
  unfold ticker_irq_handler.
  rewrite (irq_loop_dispatch _ _ _ _ _ (S (S k)) (hw HwClearInterrupt st) []
             h p f Hh Hp Hf Hd1).
  cbn [hw events event_handler reads trace]. rewrite Hins, Hn.
  match goal with
  | |- context [ticker_insert_event _ _ _ _ _ _ _ _ ?s] => set (s1 := s)
  end.
  destruct (insert_spec timestamp_bits TICKER_TIME_MASK
              TICKER_EXPECT_ISR_DELAY interface_read s1 [] obj o ts id2
              (S fuel'))
    as (st2 & l1 & l2 & Hrun & E & _ & _ & Hch & _ & Hev & Hr & _).
  { constructor. }
  { apply not_elem_of_nil. }
  { exact Ho. }
  { simpl. lia. }
  symmetry in E. apply app_nil in E as [-> ->]. simpl in Hch.
  destruct (chain_cons_inv _ _ _ _ Hch) as (a & e2 & Hh2 & He2 & Hent & Hl2).
  apply chain_nil_inv in Hl2.
  injection Hent as -> Ht Hi.
  rewrite Hrun. cbn [bind].
  rewrite (irq_loop_dispatch _ _ _ _ _ (S k) st2 _ a e2 f Hh2 He2).
  - rewrite <- Hi, Hret. cbn [bind irq_loop head]. rewrite Hl2.
    eexists. split; [reflexivity|]. simpl. rewrite last_snoc. auto.
  - rewrite Hev. exact Hf.
  - rewrite <- Ht, Hr. exact Hd2.
Qed.

End IrqMore.

(** ** Further scenarios, run *)

Lemma ex_two_armed_chain :
  chain (events ex_two_armed) (head ex_two_armed)
        ([mk_entry 1 100 11] ++ mk_entry 2 105 12 :: []).
Proof. apply (walk_sound 3). reflexivity. Qed.

Lemma ex_two_armed_agrees (l : list entry) :
  arming_agrees ex_two_armed (mk_entry 1 100 11 :: l).
Proof. reflexivity. Qed.

(** Record 3 inserted for 102 into [ex_two], read at 95: it goes between
    the entries for 100 and 105. *)
Lemma insert_places_event_witness :
  exists st' l1 l2,
    ex_insert 95 3%nat 3%positive 102 13 ex_two = Ret st' /\
    ex_two_entries = l1 ++ l2 /\
    Forall (fun y => ticker_timeIsInPeriod
                       (to_timestamp ex_bits (95 - ex_isr_delay))
                       (to_timestamp ex_bits (Z.land 102 ex_mask))
                       (e_time y) = false) l1 /\
    match l2 with
    | [] => True
    | y :: _ => ticker_timeIsInPeriod
                  (to_timestamp ex_bits (95 - ex_isr_delay))
                  (to_timestamp ex_bits (Z.land 102 ex_mask))
                  (e_time y) = true
    end /\
    chain (events st') (head st')
          (l1 ++ mk_entry 3 (to_timestamp ex_bits (Z.land 102 ex_mask)) 13
              :: l2) /\
    event_handler st' = event_handler ex_two /\
    reads st' = S (reads ex_two) /\
    (forall b, b <> 3%positive -> b ∉ (e_addr <$> ex_two_entries) ->
               events st' !! b = events ex_two !! b).
Proof.
  apply (insert_places_event ex_bits ex_mask ex_isr_delay (fixed_clock 95)
           ex_two ex_two_entries 3%positive blank 102 13 3%nat).
  - exact ex_two_chain.
  - not_linked.
  - reflexivity.
  - simpl. lia.
Defined.

(** Record 3 inserted for 85 into [ex_two], read at 95: 85 is the adjusted
    reference time. *)
Lemma insert_at_reference_is_head_witness :
  exists st',
    ex_insert 95 3%nat 3%positive 85 13 ex_two = Ret st' /\
    head st' = Some 3%positive /\
    chain (events st') (head st')
          (mk_entry 3 (to_timestamp ex_bits (Z.land 85 ex_mask)) 13
             :: ex_two_entries) /\
    trace st' = trace ex_two ++
                [CpuDisableIrq; HwRead (fixed_clock 95 (reads ex_two));
                 HwSetInterrupt (to_timestamp ex_bits (Z.land 85 ex_mask));
                 CpuEnableIrq].
Proof.
  apply (insert_at_reference_is_head ex_bits ex_mask ex_isr_delay
           (fixed_clock 95) ex_two ex_two_entries 3%positive blank 85 13
           3%nat).
  - exact ex_two_chain.
  - not_linked.
  - reflexivity.
  - simpl. lia.
  - reflexivity.
Defined.

(** Record 1 inserted into the empty queue of [ex_unlinked] with no fuel at
    all. *)
Lemma insert_into_empty_witness :
  ex_insert 95 0%nat 1%positive 100 11 ex_unlinked =
  Ret (mk_state (<[1%positive := mk_event
                     (to_timestamp ex_bits (Z.land 100 ex_mask)) 11 None]>
                   (events ex_unlinked))
                (Some 1%positive) (event_handler ex_unlinked)
                (S (reads ex_unlinked))
                (trace ex_unlinked ++
                 [CpuDisableIrq; HwRead (fixed_clock 95 (reads ex_unlinked));
                  HwSetInterrupt (to_timestamp ex_bits (Z.land 100 ex_mask));
                  CpuEnableIrq])).
Proof.
  apply (insert_into_empty ex_bits ex_mask ex_isr_delay (fixed_clock 95)
           ex_unlinked 1%positive blank 100 11 0%nat); reflexivity.
Defined.

(** Record 3 inserted for 102 into [ex_two_armed], read at 95: the head and
    the arming stay. *)
Lemma insert_keeps_arming_witness :
  exists st' l1 l2,
    ex_insert 95 3%nat 3%positive 102 13 ex_two_armed = Ret st' /\
    ex_two_entries = l1 ++ l2 /\
    chain (events st') (head st')
          (l1 ++ mk_entry 3 (to_timestamp ex_bits (Z.land 102 ex_mask)) 13
              :: l2) /\
    arming_agrees st'
          (l1 ++ mk_entry 3 (to_timestamp ex_bits (Z.land 102 ex_mask)) 13
              :: l2).
Proof.
  apply (insert_keeps_arming ex_bits ex_mask ex_isr_delay (fixed_clock 95)
           ex_two_armed ex_two_entries 3%positive blank 102 13 3%nat).
  - exact ex_two_armed_chain.
  - not_linked.
  - reflexivity.
  - simpl. lia.
  - intros _. reflexivity.
Defined.

(** The three requests of [ex_requests] on the empty queue, read at 15. *)
Lemma insert_all_keeps_age_order_witness :
  exists st' l',
    insert_all ex_bits ex_mask ex_isr_delay (fixed_clock 15) 4 ex_requests
               ex_unlinked = Ret st' /\
    chain (events st') (head st') l' /\
    age_sorted ex_bits (to_timestamp ex_bits (15 - ex_isr_delay)) l' /\
    l' ≡ₚ (request_entry ex_bits ex_mask <$> ex_requests) ++ [].
Proof.
  apply (insert_all_keeps_age_order ex_bits ex_mask ex_isr_delay
           (fixed_clock 15) 15 ex_requests ex_unlinked [] 4%nat).
  - unfold ex_bits. lia.
  - reflexivity.
  - constructor.
  - constructor.
  - constructor.
  - simpl. repeat (apply NoDup_cons; split; [not_linked|]). apply NoDup_nil_2.
  - repeat (apply Forall_cons; split;
            [split; [apply not_elem_of_nil|split; [by eexists|]];
             vm_compute; discriminate|]).
    apply Forall_nil_2.
  - simpl. lia.
Defined.

(** Record 2 removed from behind record 1 in [ex_two]. *)
Lemma remove_event_unlinks_witness :
  exists st',
    ticker_remove_event 3 2%positive ex_two = Ret st' /\
    chain (events st') (head st') ([mk_entry 1 100 11] ++ []) /\
    (2%positive ∉ (e_addr <$> [mk_entry 1 100 11] ++ [])) /\
    events st' !! 2%positive = events ex_two !! 2%positive /\
    event_handler st' = event_handler ex_two.
Proof.
  apply (remove_event_unlinks ex_two [mk_entry 1 100 11] []
           (mk_entry 2 105 12) 3).
  - exact ex_two_armed_chain.
  - simpl. lia.
Defined.

(** Record 2 removed from [ex_two_armed]: still armed for 100. *)
Lemma remove_keeps_arming_witness :
  exists st',
    ticker_remove_event 3 2%positive ex_two_armed = Ret st' /\
    chain (events st') (head st') ([mk_entry 1 100 11] ++ []) /\
    arming_agrees st' ([mk_entry 1 100 11] ++ []).
Proof.
  apply (remove_keeps_arming ex_two_armed [mk_entry 1 100 11] []
           (mk_entry 2 105 12) 3).
  - exact ex_two_armed_chain.
  - simpl. lia.
  - intros _. reflexivity.
Defined.

(** Record 2 removed twice from [ex_two]. *)
Lemma remove_twice_witness :
  exists st1,
    ticker_remove_event 3 2%positive ex_two = Ret st1 /\
    ticker_remove_event 3 2%positive st1 =
      Ret (hw CpuEnableIrq (hw CpuDisableIrq st1)).
Proof.
  apply (remove_twice ex_two [mk_entry 1 100 11] [] (mk_entry 2 105 12) 3).
  - exact ex_two_armed_chain.
  - simpl. lia.
Defined.

(** Record 3 inserted into [ex_two_armed] for 90, read at 95, so that it
    becomes the head, and removed again. *)
Lemma insert_then_remove_witness :
  exists st1 st2,
    ex_insert 95 4%nat 3%positive 90 13 ex_two_armed = Ret st1 /\
    ticker_remove_event 4 3%positive st1 = Ret st2 /\
    chain (events st2) (head st2) ex_two_entries /\
    event_handler st2 = event_handler ex_two_armed /\
    arming_agrees st2 ex_two_entries.
Proof.
  apply (insert_then_remove ex_bits ex_mask ex_isr_delay (fixed_clock 95)
           ex_two_armed ex_two_entries 3%positive blank 90 13 4%nat).
  - exact ex_two_armed_chain.
  - not_linked.
  - reflexivity.
  - simpl. lia.
  - intros _. reflexivity.
Defined.

(** [ex_two] drained twice at 92. *)
Lemma irq_twice_witness :
  exists st1 ids l2 st2,
    ex_irq 92 handler_returns 3 ex_two = Ret (st1, ids) /\
    chain (events st1) (head st1) l2 /\
    ex_irq 92 handler_returns 3 st1 = Ret (st2, []) /\
    events st2 = events st1 /\ head st2 = head st1 /\
    last (trace st2) = Some (final_arming l2).
Proof.
  apply (irq_twice ex_mask ex_future_tolerance ex_past_tolerance
           (fixed_clock 92) handler_returns 92 ex_two ex_two_entries 3).
  - exact handler_returns_quiet.
  - reflexivity.
  - exact ex_two_chain.
  - simpl. lia.
Defined.

(** [ex_two] drained at 92 after the handler is set to NULL, with the
    re-inserting handler behind every function pointer. *)
Lemma irq_with_null_handler_witness :
  exists st' l1 l2,
    ex_irq 92 ex_reinsert 3 (ticker_set_handler None ex_two) = Ret (st', []) /\
    ex_two_entries = l1 ++ l2 /\
    events st' = events ex_two /\
    chain (events st') (head st') l2 /\
    last (trace st') = Some (final_arming l2) /\
    Forall (fun y => exists n,
              event_due ex_mask ex_future_tolerance ex_past_tolerance
                        (e_time y) (fixed_clock 92 n) = true) l1 /\
    match l2 with
    | [] => True
    | y :: _ => exists n,
        event_due ex_mask ex_future_tolerance ex_past_tolerance
                  (e_time y) (fixed_clock 92 n) = false
    end.
Proof.
  apply (irq_with_null_handler ex_mask ex_future_tolerance ex_past_tolerance
           (fixed_clock 92) ex_reinsert ex_two ex_two_entries 3).
  - exact ex_two_chain.
  - simpl. lia.
Defined.

(** [ex_periodic] drained at 1000 with [ex_insert_once]: the event with id
    7 and the event with id 8 that the handler inserts are both
    dispatched. *)
Lemma irq_dispatches_event_inserted_by_handler_witness :
  exists st',
    ex_irq 1000 ex_insert_once 3 ex_periodic = Ret (st', [7; 8]) /\
    head st' = None /\
    last (trace st') = Some HwDisableInterrupt.
Proof.
  apply (irq_dispatches_event_inserted_by_handler ex_mask ex_future_tolerance
           ex_past_tolerance (fixed_clock 1000) ex_insert_once ex_bits
           ex_isr_delay ex_periodic 1%positive 1%positive
           (mk_event 1000 7 None) (mk_event 1000 7 None) 1%positive
           1003 8 0%nat 0%nat); reflexivity.
Defined.

(** ** Reading the counter, inserting and draining *)

Section ReadInsertDrain.

Variable timestamp_bits : Z.
Variable TICKER_TIME_MASK : Z.
Variable TICKER_FUTURE_TOLERANCE : Z.
Variable TICKER_PAST_TOLERANCE : Z.
Variable TICKER_EXPECT_ISR_DELAY : Z.
Variable interface_read : nat -> Z.
Variable call_handler : fnptr -> Z -> State -> outcome State.

(** X16. An event scheduled for the value [ticker_read] returns plus an offset
    within the future tolerance fires in the next interrupt: with a counter
    that stands still, inserted into the empty queue it becomes the head,
    and [ticker_irq_handler] dispatches it and leaves the queue empty and
    the hardware disarmed. *)
Theorem read_insert_drain (c d : Z) (st : State) (obj : addr)
    (o : ticker_event_t) (f : fnptr) (id_ : Z) (fuel k : nat) :
  (forall n, interface_read n = c) ->
  head st = None ->
  events st !! obj = Some o ->
  event_handler st = Some f ->
  (forall s, call_handler f id_ s = Ret s) ->
  0 <= d <= TICKER_FUTURE_TOLERANCE ->
  d < 2 ^ 32 ->
  0 <= c + d < 2 ^ timestamp_bits ->
  Z.land (c + d) TICKER_TIME_MASK = c + d ->
  Z.land d TICKER_TIME_MASK = d ->
  exists st2 st3,
    ticker_insert_event timestamp_bits TICKER_TIME_MASK
      TICKER_EXPECT_ISR_DELAY interface_read (S fuel) obj
      ((ticker_read interface_read st).1 + d) id_
      (ticker_read interface_read st).2 = Ret st2 /\
    head st2 = Some obj /\
    ticker_irq_handler TICKER_TIME_MASK TICKER_FUTURE_TOLERANCE
      TICKER_PAST_TOLERANCE interface_read call_handler (S (S k)) st2 =
      Ret (st3, [id_]) /\
    head st3 = None /\
    last (trace st3) = Some HwDisableInterrupt.
Proof.
  intros Hclock Hh Ho Hf Hret Hd Hd32 Hcd Hmask Hdmask.
  unfold ticker_read, read. cbn [fst snd]. rewrite Hclock.
  match goal with
  | |- context [ticker_insert_event _ _ _ _ _ _ _ _ ?s] => set (s1 := s)
  end.
  destruct (insert_spec timestamp_bits TICKER_TIME_MASK
              TICKER_EXPECT_ISR_DELAY interface_read s1 [] obj o (c + d) id_
              (S fuel))
    as (st2 & l1 & l2 & Hrun & E & _ & _ & Hch & Hhd & Hev & _).
  { unfold s1. simpl. rewrite Hh. constructor. }
  { apply not_elem_of_nil. }
  { exact Ho. }
  { simpl. lia. }
  symmetry in E. apply app_nil in E as [-> ->]. simpl in Hch, Hhd.
  destruct (chain_cons_inv _ _ _ _ Hch) as (a & e2 & Hh2 & He2 & Hent & Hl2).
  apply chain_nil_inv in Hl2. injection Hent as -> Ht Hi.
  exists st2. eexists. split; [exact Hrun|]. split; [exact Hhd|].
  unfold ticker_irq_handler.
  rewrite (irq_loop_dispatch _ _ _ _ _ (S k) (hw HwClearInterrupt st2) []
             a e2 f Hh2 He2).
  - rewrite <- Hi, Hret. cbn [bind irq_loop head]. rewrite Hl2.
    split; [reflexivity|]. simpl. rewrite last_snoc. auto.
  - simpl. rewrite Hev. exact Hf.
  - rewrite <- Ht, Hclock. unfold event_due, to_timestamp.
    rewrite Hmask, (Z.mod_small (c + d)) by lia.
    replace (c + d - c) with d by ring.
    rewrite Z.mod_small, Hdmask by lia.
    destruct (Z.leb_spec d TICKER_FUTURE_TOLERANCE); [reflexivity|lia].
Qed.

End ReadInsertDrain.

(** The counter reads 1000; record 1 is scheduled 3 ticks ahead. *)
Lemma read_insert_drain_witness :
  exists st2 st3,
    ex_insert 1000 1%nat 1%positive
      ((ticker_read (fixed_clock 1000) ex_unlinked).1 + 3) 9
      (ticker_read (fixed_clock 1000) ex_unlinked).2 = Ret st2 /\
    head st2 = Some 1%positive /\
    ex_irq 1000 handler_returns 2 st2 = Ret (st3, [9]) /\
    head st3 = None /\
    last (trace st3) = Some HwDisableInterrupt.
Proof.
  apply (read_insert_drain ex_bits ex_mask ex_future_tolerance
           ex_past_tolerance ex_isr_delay (fixed_clock 1000) handler_returns
           1000 3 ex_unlinked 1%positive blank 1%positive 9 0%nat 0%nat);
    try reflexivity; vm_compute; intuition discriminate.
Defined.
